(** * GeoHack: coordinate parsing, projections and template substitution

    A shallow embedding of the Rust sources of geohack
    ([geo_param.rs], [map_sources.rs], [misc_map_source_values.rs],
    [traverse_mercator.rs]).

    Modelling conventions.
    - An [f64] is modelled by [f64]: a finite value is an exact rational
      ([F q]); negative zero, the two infinities and NaN are kept as
      constructors because the code observes them (range checks reject
      NaN and infinities, [copysign] reads the sign of zero).  Arithmetic
      on finite values is exact rational arithmetic: the rounding of IEEE
      operations is not modelled.
    - [str::parse::<f64>] follows Rust's grammar (sign, digits, point,
      exponent, [inf], [infinity], [nan]) and returns the exact decimal
      value.
    - Rust strings are byte strings: [String.string] (one [ascii] per
      byte); [find] returns a byte index, slices are [substring]s.
      [split_whitespace] splits on ASCII whitespace.
    - A [HashMap<String, String>] is a [gmap string string]. *)

From Stdlib Require Import QArith Qround Qabs Qminmax Lqa ZArith Lia.
From stdpp Require Import base gmap strings list.
From Stdlib Require Import Ascii String.
From Stdlib Require SpecFloat.

Local Open Scope string_scope.

(* ------------------------------------------------------------------ *)
(** ** Numbers *)

Inductive f64 : Type :=
| F (q : Q)              (* finite, non-negative-zero value *)
| NegZero
| Inf (neg : bool)
| NaN.

(** [a < b] on rationals. *)
Definition Qlt_bool (a b : Q) : bool := negb (Qle_bool b a).

(** Value of a finite float ([-0.0] is [0]). *)
Definition fval (x : f64) : Q :=
  match x with
  | F q => q
  | _ => 0
  end.

(** Sign bit, as read by [copysign]. *)
Definition fsign_neg (x : f64) : bool :=
  match x with
  | F q => Qlt_bool q 0
  | NegZero => true
  | Inf b => b
  | NaN => false
  end.

(** [x.copysign(y)] for finite [x]: the magnitude of [x] with the sign of [y]. *)
Definition copysign (x : Q) (y : f64) : Q :=
  if fsign_neg y then - Qabs x else Qabs x.

(** [(lo..=hi).contains(&x)]: [lo <= x && x <= hi]; false on NaN. *)
Definition range_incl_contains (lo hi : Q) (x : f64) : bool :=
  match x with
  | F q => Qle_bool lo q && Qle_bool q hi
  | NegZero => Qle_bool lo 0 && Qle_bool 0 hi
  | Inf _ | NaN => false
  end.

(** Truncation toward zero. *)
Definition trunc_Q (q : Q) : Z :=
  if Qle_bool 0 q then Qfloor q else - Qfloor (- q).

(** [q as i32] for a finite value: truncation, saturating at the bounds. *)
Definition as_i32 (q : Q) : Z :=
  Z.max (-2147483648) (Z.min 2147483647 (trunc_Q q)).

(** [q as usize] for a finite value: truncation, negatives saturate to 0. *)
Definition as_usize (q : Q) : Z := Z.max 0 (trunc_Q q).

(* ------------------------------------------------------------------ *)
(** ** String helpers *)

Definition is_digit (c : ascii) : bool :=
  let n := nat_of_ascii c in (48 <=? n)%nat && (n <=? 57)%nat.

Definition digit_val (c : ascii) : Z := Z.of_nat (nat_of_ascii c - 48).

Definition ascii_upper (c : ascii) : ascii :=
  let n := nat_of_ascii c in
  if (97 <=? n)%nat && (n <=? 122)%nat then ascii_of_nat (n - 32) else c.

Fixpoint to_upper_ascii (s : string) : string :=
  match s with
  | EmptyString => EmptyString
  | String c s' => String (ascii_upper c) (to_upper_ascii s')
  end.

(** [a.eq_ignore_ascii_case(b)] *)
Definition eq_ignore_ascii_case (a b : string) : bool :=
  String.eqb (to_upper_ascii a) (to_upper_ascii b).

(** [s.find(c)]: byte index of the first occurrence of [c]. *)
Fixpoint find_char (c : ascii) (s : string) : option nat :=
  match s with
  | EmptyString => None
  | String d s' =>
      if Ascii.eqb c d then Some 0%nat
      else option_map S (find_char c s')
  end.

(** [&s[i..]] *)
Definition slice_from (i : nat) (s : string) : string :=
  substring i (String.length s - i) s.

(** [&s[..i]] *)
Definition slice_to (i : nat) (s : string) : string := substring 0 i s.

(** [&s[i..j]] *)
Definition slice (i j : nat) (s : string) : string := substring i (j - i) s.

(** [s.replace(c, d)] on single bytes. *)
Fixpoint replace_char (c d : ascii) (s : string) : string :=
  match s with
  | EmptyString => EmptyString
  | String x s' => String (if Ascii.eqb x c then d else x) (replace_char c d s')
  end.

(** [s.replace(pat, rep)]: every non-overlapping occurrence of [pat],
    scanning left to right, is replaced; an empty [pat] matches before
    every byte and at the end. *)
Fixpoint str_replace_go (pat rep : string) (t : string) (skip : nat) : string :=
  match t with
  | EmptyString => EmptyString
  | String c t' =>
      match skip with
      | S n => str_replace_go pat rep t' n
      | O =>
          if String.prefix pat t
          then rep ++ str_replace_go pat rep t' (String.length pat - 1)
          else String c (str_replace_go pat rep t' 0)
      end
  end.

Fixpoint str_replace_empty (rep : string) (t : string) : string :=
  match t with
  | EmptyString => rep
  | String c t' => rep ++ String c (str_replace_empty rep t')
  end.

Definition str_replace (t pat rep : string) : string :=
  match pat with
  | EmptyString => str_replace_empty rep t
  | _ => str_replace_go pat rep t 0
  end.

(** ASCII whitespace, as [char::is_whitespace] on one-byte characters. *)
Definition is_ws (c : ascii) : bool :=
  let n := nat_of_ascii c in
  (n =? 32)%nat || ((9 <=? n)%nat && (n <=? 13)%nat).

(** [s.split_whitespace()] *)
Fixpoint split_ws_go (s : string) (cur : string) : list string :=
  match s with
  | EmptyString => match cur with EmptyString => [] | _ => [cur] end
  | String c s' =>
      if is_ws c
      then match cur with
           | EmptyString => split_ws_go s' EmptyString
           | _ => cur :: split_ws_go s' EmptyString
           end
      else split_ws_go s' (cur ++ String c EmptyString)
  end.

Definition split_whitespace (s : string) : list string := split_ws_go s EmptyString.

(* ------------------------------------------------------------------ *)
(** ** Rust number parsing and printing *)

(** Digits of a natural number in decimal. *)
Fixpoint digits_of_pos (fuel : nat) (n : Z) (acc : string) : string :=
  match fuel with
  | O => acc
  | S f =>
      let d := String (ascii_of_nat (48 + Z.to_nat (n mod 10))) EmptyString in
      if (n <? 10)%Z then d ++ acc else digits_of_pos f (n / 10)%Z (d ++ acc)
  end.

(** [n.to_string()] for an integer. *)
Definition z_to_string (n : Z) : string :=
  if (n <? 0)%Z
  then "-" ++ digits_of_pos (S (Pos.size_nat (Z.to_pos (- n)))) (- n) EmptyString
  else digits_of_pos (S (Pos.size_nat (Z.to_pos n))) n EmptyString.

(** A run of decimal digits: its value and its length. *)
Fixpoint take_digits (l : list ascii) (v : Z) (k : nat) : Z * nat * list ascii :=
  match l with
  | c :: l' => if is_digit c then take_digits l' (10 * v + digit_val c)%Z (S k) else (v, k, l)
  | [] => (v, k, [])
  end.

(** [s.parse::<i32>()]: an optional sign and at least one digit,
    within the [i32] range. *)
Definition parse_i32 (s : string) : option Z :=
  let l := list_ascii_of_string s in
  let '(neg, body) :=
    match l with
    | "-"%char :: r => (true, r)
    | "+"%char :: r => (false, r)
    | _ => (false, l)
    end in
  match take_digits body 0 0 with
  | (v, S _, []) =>
      let z := if neg then (- v)%Z else v in
      if ((-2147483648 <=? z) && (z <=? 2147483647))%Z then Some z else None
  | _ => None
  end.

Definition lower_eq (l : list ascii) (w : string) : bool :=
  String.eqb (String.string_of_list_ascii (map (fun c =>
    let n := nat_of_ascii c in
    if (65 <=? n)%nat && (n <=? 90)%nat then ascii_of_nat (n + 32) else c) l)) w.

(** [s.parse::<f64>()] *)
Definition parse_f64 (s : string) : option f64 :=
  let l := list_ascii_of_string s in
  let '(neg, body) :=
    match l with
    | "-"%char :: r => (true, r)
    | "+"%char :: r => (false, r)
    | _ => (false, l)
    end in
  if lower_eq body "inf" || lower_eq body "infinity" then Some (Inf neg)
  else if lower_eq body "nan" then Some NaN
  else
    let '(ip, ni, r1) := take_digits body 0 0 in
    let '(m, nf, r2) :=
      match r1 with
      | "."%char :: r => take_digits r ip 0
      | _ => (ip, 0%nat, r1)
      end in
    let ok_mant := (1 <=? ni + nf)%nat in
    let exp :=
      match r2 with
      | [] => Some 0%Z
      | e :: r3 =>
          if Ascii.eqb e "e" || Ascii.eqb e "E" then
            let '(eneg, r4) :=
              match r3 with
              | "-"%char :: r => (true, r)
              | "+"%char :: r => (false, r)
              | _ => (false, r3)
              end in
            match take_digits r4 0 0 with
            | (ev, S _, []) => Some (if eneg then (- ev)%Z else ev)
            | _ => None
            end
          else None
      end in
    match exp with
    | Some e =>
        if ok_mant then
          let k := (e - Z.of_nat nf)%Z in
          let q := if (0 <=? k)%Z then inject_Z (m * 10 ^ k)
                   else Qmake m (Z.to_pos (10 ^ (- k))) in
          if (m =? 0)%Z then Some (if neg then NegZero else F 0)
          else Some (F (if neg then - q else q))
        else None
    | None => None
    end.

(** [x.parse().unwrap_or(0.0)] *)
Definition parse_or_zero (s : string) : f64 :=
  match parse_f64 s with Some x => x | None => F 0 end.

(* ------------------------------------------------------------------ *)
(** ** [GeoParam] (geo_param.rs) *)

Local Open Scope Q_scope.

(** The three [anyhow!] errors of the parser. *)
Inductive GeoError : Type :=
| NoCoordinatesProvided   (* "No coordinates provided" *)
| UnrecognizedFormat      (* "Unrecognized format" *)
| OutOfRange.             (* "Out of range" *)

Inductive result (A : Type) : Type :=
| Ok (a : A)
| Err (e : GeoError).
Arguments Ok {A} a.
Arguments Err {A} e.

Definition rbind {A B} (r : result A) (k : A -> result B) : result B :=
  match r with Ok a => k a | Err e => Err e end.
Notation "x <- r ;; k" := (rbind r (fun x => k))
  (at level 100, r at next level, right associativity).

(** An element of [coor]: the [to_string()] of a parsed number (kept as
    the number it prints) or a direction token. *)
Inductive CoorLit : Type :=
| LNum (x : f64)
| LDir (s : string).

Record GeoParam : Type := mkGeo {
  latdeg : Q;
  londeg : Q;
  latdeg_min : Q;
  londeg_min : Q;
  latdeg_max : Q;
  londeg_max : Q;
  pieces : list string;
  coor : list CoorLit
}.

Definition set_pieces (g : GeoParam) (p : list string) : GeoParam :=
  mkGeo (latdeg g) (londeg g) (latdeg_min g) (londeg_min g)
        (latdeg_max g) (londeg_max g) p (coor g).

(** Preprocessing of [GeoParam::new]: underscores become spaces, the
    string is split on whitespace and a standalone [O]/[o] becomes [E]. *)
Definition tokenize (param : string) : list string :=
  map (fun s => if String.eqb s "O" || String.eqb s "o" then "E" else s)
      (split_whitespace (replace_char "_" " " param)).

(** [GeoParam::is_coor] *)
Definition is_coor (ns ew : string) : bool :=
  let ns := to_upper_ascii ns in
  let ew := to_upper_ascii ew in
  (String.eqb ns "N" || String.eqb ns "S") && (String.eqb ew "E" || String.eqb ew "W").

(** What [parse_coordinate_format] reads: the Rust code stores the two
    degree values in [self.latdeg]/[self.londeg] and returns the rest;
    here all of it is returned and [get_coor] writes the converted
    degrees back (on an error the whole object is dropped). *)
Record Parsed : Type := mkParsed {
  p_latdeg : f64;
  p_londeg : f64;
  p_lat_ns : string;
  p_lon_ew : string;
  p_latmin : f64;
  p_lonmin : f64;
  p_latsec : f64;
  p_lonsec : f64;
  p_coor : list CoorLit
}.

(** [parse_piece]: [self.pieces.remove(0).parse().unwrap_or(0.0)] *)
Definition parse_piece (s : string) : f64 := parse_or_zero s.

(** Degrees only: ["40 N 74 W"]. *)
Definition layout_deg (ps : list string) : option (Parsed * list string) :=
  match ps with
  | a :: ns :: b :: ew :: rest =>
      if is_coor ns ew then
        let lat := parse_piece a in
        let lon := parse_piece b in
        Some (mkParsed lat lon ns ew (F 0) (F 0) (F 0) (F 0)
                [LNum lat; LDir ns; LNum lon; LDir ew], rest)
      else None
  | _ => None
  end.

(** Degrees and minutes: ["40 30 N 74 0 W"]. *)
Definition layout_deg_min (ps : list string) : option (Parsed * list string) :=
  match ps with
  | a :: am :: ns :: b :: bm :: ew :: rest =>
      if is_coor ns ew then
        let lat := parse_piece a in
        let latmin := parse_piece am in
        let lon := parse_piece b in
        let lonmin := parse_piece bm in
        Some (mkParsed lat lon ns ew latmin lonmin (F 0) (F 0)
                [LNum lat; LNum latmin; LDir ns; LNum lon; LNum lonmin; LDir ew], rest)
      else None
  | _ => None
  end.

(** Degrees, minutes and seconds: ["40 30 45 N 74 0 21 W"]. *)
Definition layout_deg_min_sec (ps : list string) : option (Parsed * list string) :=
  match ps with
  | a :: am :: as_ :: ns :: b :: bm :: bs :: ew :: rest =>
      if is_coor ns ew then
        let lat := parse_piece a in
        let latmin := parse_piece am in
        let latsec := parse_piece as_ in
        let lon := parse_piece b in
        let lonmin := parse_piece bm in
        let lonsec := parse_piece bs in
        Some (mkParsed lat lon ns ew latmin lonmin latsec lonsec
                [LNum lat; LNum latmin; LNum latsec; LDir ns;
                 LNum lon; LNum lonmin; LNum lonsec; LDir ew], rest)
      else None
  | _ => None
  end.

(** [GeoParam::parse_coordinate_format]: the layouts are tried in the
    order of the source.  It is only called on a non-empty token list
    ([get_coor] checks), where [self.pieces[0]] exists. *)
Definition parse_coordinate_format (ps : list string) : result (Parsed * list string) :=
  match ps with
  | [] => Err UnrecognizedFormat
  | p0 :: rest =>
      match find_char ";" p0 with
      | Some i =>
          let lat := parse_or_zero (slice_to i p0) in
          let lon := parse_or_zero (slice_from (S i) p0) in
          Ok (mkParsed lat lon "N" "E" (F 0) (F 0) (F 0) (F 0) [LNum lat; LNum lon], rest)
      | None =>
          match layout_deg ps with
          | Some r => Ok r
          | None =>
              match layout_deg_min ps with
              | Some r => Ok r
              | None =>
                  match layout_deg_min_sec ps with
                  | Some r => Ok r
                  | None => Err UnrecognizedFormat
                  end
              end
          end
      end
  end.

(** [GeoParam::validate_ranges] *)
Definition validate_ranges (p : Parsed) : bool :=
  let valid_degree_range (deg : f64) (max : Q) := range_incl_contains (- max) max deg in
  let valid_minsec_range (v : f64) := range_incl_contains 0 60 v in
  valid_degree_range (p_latdeg p) 90%Q && valid_degree_range (p_londeg p) 360%Q
  && valid_minsec_range (p_latmin p) && valid_minsec_range (p_lonmin p)
  && valid_minsec_range (p_latsec p) && valid_minsec_range (p_lonsec p).

(** [direction_factor] *)
Definition direction_factor (dir neg_dir : string) : Q :=
  if eq_ignore_ascii_case dir neg_dir then -1 else 1.

(** [GeoParam::convert_to_decimal_degrees] on validated (finite) values:
    returns the final [(latdeg, londeg)]. *)
Definition convert_to_decimal_degrees (p : Parsed) : Q * Q :=
  let latfactor := direction_factor (p_lat_ns p) "S" in
  let lonfactor := direction_factor (p_lon_ew p) "W" in
  let latmin_total := fval (p_latmin p) + fval (p_latsec p) / 60 in
  let lonmin_total := fval (p_lonmin p) + fval (p_lonsec p) / 60 in
  let lat := fval (p_latdeg p) + copysign latmin_total (p_latdeg p) / 60 in
  let lon := fval (p_londeg p) + copysign lonmin_total (p_londeg p) / 60 in
  (lat * latfactor, lon * lonfactor).

(** [GeoParam::get_coor] *)
Definition get_coor (g : GeoParam) : result GeoParam :=
  match pieces g with
  | [] => Err NoCoordinatesProvided
  | ps =>
      pr <- parse_coordinate_format ps ;;
      let '(p, rest) := pr in
      if validate_ranges p then
        let '(lat, lon) := convert_to_decimal_degrees p in
        Ok (mkGeo lat lon (latdeg_min g) (londeg_min g) (latdeg_max g) (londeg_max g)
                  rest (p_coor p))
      else Err OutOfRange
  end.

(** [GeoParam::init_min_max] *)
Definition init_min_max (g : GeoParam) : GeoParam :=
  mkGeo (latdeg g) (londeg g) (latdeg g) (londeg g) (latdeg g) (londeg g)
        (pieces g) (coor g).

(** [GeoParam::update_range_bounds] *)
Definition update_range_bounds (g : GeoParam) : GeoParam :=
  let '(lat_min, lat_max) :=
    if Qlt_bool (latdeg g) (latdeg_max g) then (latdeg g, latdeg_max g)
    else (latdeg_min g, latdeg g) in
  let '(lon_min, lon_max) :=
    if Qlt_bool (londeg g) (londeg_max g) then (londeg g, londeg_max g)
    else (londeg_min g, londeg g) in
  mkGeo ((lat_max + lat_min) / 2) ((lon_max + lon_min) / 2)
        lat_min lon_min lat_max lon_max (pieces g) [].

Definition geo_default : GeoParam := mkGeo 0 0 0 0 0 0 [] [].

(** [GeoParam::new] from the token list: read coordinates, and if
    there is a range, read the range. *)
Definition geo_from_pieces (ps : list string) : result GeoParam :=
  geo <- get_coor (set_pieces geo_default ps) ;;
  let geo := init_min_max geo in
  match pieces geo with
  | "to" :: rest =>
      geo <- get_coor (set_pieces geo rest) ;;
      Ok (update_range_bounds geo)
  | _ => Ok geo
  end.

(** [GeoParam::new] *)
Definition geo_new (param : string) : result GeoParam :=
  geo_from_pieces (tokenize param).

(** One iteration of the loop of [GeoParam::get_attr] on the popped token [s]. *)
Definition attr_step (attributes : gmap string string) (s : string) : gmap string string :=
  let bare :=
    match parse_i32 s with
    | Some num =>
        (* Bare number is treated as scale if not already set *)
        if (0 <? num)%Z && negb (bool_decide (is_Some (attributes !! "scale")))
        then <["scale" := z_to_string num]> attributes
        else attributes
    | None => attributes
    end in
  match find_char ":" s with
  | Some i =>
      if (1 <=? i)%nat then
        let attr := slice_to i s in
        let val := slice_from (S i) s in
        let '(attributes, val) :=
          match find_char "(" val, find_char ")" val with
          | Some j, Some k =>
              if (j <? k)%nat
              then (<["arg:" ++ attr := slice (S j) k val]> attributes, slice_to j val)
              else (attributes, val)
          | _, _ => (attributes, val)
          end in
        <[attr := val]> attributes
      else bare
  | None => bare
  end.

(** [while let Some(s) = self.pieces.pop()]: the argument lists the
    tokens in popping order, i.e. the reversed [pieces]. *)
Fixpoint get_attr_loop (popped : list string) (attributes : gmap string string)
  : gmap string string :=
  match popped with
  | [] => attributes
  | s :: rest => get_attr_loop rest (attr_step attributes s)
  end.

(** [GeoParam::get_attr]: the attribute map, and the object with its
    [pieces] drained. *)
Definition get_attr (g : GeoParam) : gmap string string * GeoParam :=
  (get_attr_loop (rev (pieces g)) ∅, set_pieces g []).

(* ------------------------------------------------------------------ *)
(** ** Template substitution (map_sources.rs) *)

(** [MapSources::quote_html] *)
Definition quote_html (s : string) : string :=
  str_replace (str_replace s "{" "&#123;") "}" "&#125;".

(** [iter.enumerate()] *)
Definition enumerate {A} (l : list A) : list (nat * A) := combine (seq 0 (List.length l)) l.

(** One [for (i, search_str) in ... .enumerate()] loop of [replace_in_page]. *)
Definition replace_loop (ret : string) (search_strs replace : list string) : string :=
  fold_left (fun ret '(i, search_str) =>
               match nth_error replace i with
               | Some replacement => str_replace ret search_str replacement
               | None => ret
               end)
            (enumerate search_strs) ret.

(** The substitution of [MapSources::replace_in_page].  [search] is the
    list of placeholders read from [data/search.json] and [replace] the
    vector of values built from the token sources, index for index: both
    are inputs here.  The first loop runs over the HTML-quoted
    placeholders, the second over the raw ones. *)
Definition replace_in_page (thetext : string) (search replace : list string) : string :=
  let ret := replace_loop thetext (map quote_html search) replace in
  replace_loop ret search replace.

(** The substitution as the spec words it: a whole-text pass replacing
    the escaped placeholders, then a whole-text pass replacing the raw
    ones, each pass a single left-to-right scan over the text that
    substitutes any placeholder of the pass at once. *)
Fixpoint first_match (pats : list (string * string)) (t : string) : option (string * string) :=
  match pats with
  | [] => None
  | (p, v) :: ps =>
      if negb (String.eqb p "") && String.prefix p t then Some (p, v) else first_match ps t
  end.

Fixpoint multi_replace_go (pats : list (string * string)) (t : string) (skip : nat) : string :=
  match t with
  | EmptyString => EmptyString
  | String c t' =>
      match skip with
      | S n => multi_replace_go pats t' n
      | O =>
          match first_match pats t with
          | Some (p, v) => v ++ multi_replace_go pats t' (String.length p - 1)
          | None => String c (multi_replace_go pats t' 0)
          end
      end
  end.

Definition substitute_spec (thetext : string) (search replace : list string) : string :=
  let pass1 := multi_replace_go (combine (map quote_html search) replace) thetext 0 in
  multi_replace_go (combine search replace) pass1 0.

(** Key after key: each (placeholder, value) pair replaces all of its
    occurrences in the text produced so far. *)
Definition sequential_pass (pairs : list (string * string)) (t : string) : string :=
  fold_left (fun t '(p, v) => str_replace t p v) pairs t.

(** [s] occurs in [t]. *)
Fixpoint occurs (s t : string) : bool :=
  String.prefix s t ||
  match t with
  | EmptyString => false
  | String _ t' => occurs s t'
  end.

(* ------------------------------------------------------------------ *)
(** ** Transverse Mercator (traverse_mercator.rs) *)

Record Ellipsoid : Type := mkEllipsoid { radius : Q; eccentricity_sq : Q }.

Definition WGS84 : Ellipsoid := mkEllipsoid 6378137 0.006694379990.
Definition AIRY_1830 : Ellipsoid := mkEllipsoid 6377563.396 0.00667054.

Record ProjectionParams : Type := mkParams {
  scale : Q;
  easting_offset : Q;
  northing_offset : Q;
  northing_offset_south : Q
}.

Definition UTM_PARAMS : ProjectionParams := mkParams 0.9996 500000 0 10000000.
Definition OSGB36_PARAMS : ProjectionParams := mkParams 0.9996013 400000 (-100000) 0.

Record ProjectionResult : Type := mkResult { northing : Q; easting : Q; zone : string }.

Record TransverseMercator : Type := mkTM {
  tm_result : ProjectionResult;
  tm_ellipsoid : Ellipsoid;
  tm_params : ProjectionParams
}.

Definition tm_default : TransverseMercator :=
  mkTM (mkResult 0 0 "") WGS84 UTM_PARAMS.

Definition UTM_ZONE_LETTERS : string := "CCCDEFGHJKLMNPQRSTUVWXXX".

(* ------------------------------------------------------------------ *)
(** ** IEEE binary64 arithmetic (UTM zones, traverse_mercator.rs)

    [compute_utm_zone] is sensitive to the rounding of its float
    operations at the antimeridian, so it is embedded over IEEE binary64
    (the Standard Library's [SpecFloat] with 53 bits of precision and
    maximal exponent 1024, rounding to nearest, ties to even, as Rust's
    [f64] operations do). *)

Definition binary64 : Type := SpecFloat.spec_float.

Definition b64_add : binary64 -> binary64 -> binary64 := SpecFloat.SFadd 53 1024.
Definition b64_sub : binary64 -> binary64 -> binary64 := SpecFloat.SFsub 53 1024.
Definition b64_mul : binary64 -> binary64 -> binary64 := SpecFloat.SFmul 53 1024.
Definition b64_div : binary64 -> binary64 -> binary64 := SpecFloat.SFdiv 53 1024.

(** An integer literal such as [180.0] (exact for the small integers used). *)
Definition b64_of_Z (z : Z) : binary64 := SpecFloat.binary_normalize 53 1024 z 0 false.

(** The value of a finite float. *)
Definition b64_value (x : binary64) : option Q :=
  match x with
  | SpecFloat.S754_zero _ => Some 0
  | SpecFloat.S754_finite s m e =>
      let q := if (0 <=? e)%Z then inject_Z (Zpos m * 2 ^ e)
               else Qmake (Zpos m) (Z.to_pos (2 ^ (- e))) in
      Some (if s then - q else q)
  | _ => None
  end.

(** [x.floor()]: exact; [-0.0], infinities and NaN are returned as they are. *)
Definition b64_floor (x : binary64) : binary64 :=
  match x with
  | SpecFloat.S754_finite s m e =>
      if (0 <=? e)%Z then x
      else SpecFloat.binary_normalize 53 1024
             ((if s then - Zpos m else Zpos m) / 2 ^ (- e))%Z 0 s
  | _ => x
  end.

(** Truncation toward zero of a float, as an unbounded integer
    ([None] on NaN, the sign on infinities). *)
Definition b64_trunc (x : binary64) : option (Z + bool) :=
  match x with
  | SpecFloat.S754_zero _ => Some (inl 0%Z)
  | SpecFloat.S754_finite s m e =>
      let t := if (0 <=? e)%Z then (Zpos m * 2 ^ e)%Z else Z.quot (Zpos m) (2 ^ (- e)) in
      Some (inl (if s then - t else t)%Z)
  | SpecFloat.S754_infinity s => Some (inr s)
  | SpecFloat.S754_nan => None
  end.

(** [x as i32]: truncation, saturating; NaN gives 0. *)
Definition b64_as_i32 (x : binary64) : Z :=
  match b64_trunc x with
  | Some (inl t) => Z.max (-2147483648) (Z.min 2147483647 t)
  | Some (inr true) => (-2147483648)%Z
  | Some (inr false) => 2147483647%Z
  | None => 0%Z
  end.

(** [x as usize] (64-bit): truncation, saturating at 0 and [2^64 - 1];
    NaN gives 0. *)
Definition b64_as_usize (x : binary64) : Z :=
  match b64_trunc x with
  | Some (inl t) => Z.max 0 (Z.min (2 ^ 64 - 1) t)
  | Some (inr true) => 0%Z
  | Some (inr false) => (2 ^ 64 - 1)%Z
  | None => 0%Z
  end.

(** [(a..b).contains(&x)]: [a <= x && x < b], false on NaN. *)
Definition range_contains (a b x : binary64) : bool :=
  SpecFloat.SFleb a x && SpecFloat.SFltb x b.

(** [TransverseMercator::normalize_longitude] *)
Definition normalize_longitude (longitude : binary64) : binary64 :=
  b64_sub longitude
    (b64_mul (b64_floor (b64_div (b64_add longitude (b64_of_Z 180)) (b64_of_Z 360)))
             (b64_of_Z 360)).

(** [TransverseMercator::compute_utm_zone].  The [+ 1] on the [i32] zone
    cannot overflow: a normalised longitude is finite and small, or NaN. *)
Definition compute_utm_zone (latitude longitude : binary64) : string :=
  let longitude := normalize_longitude longitude in
  let zone_number :=
    if range_contains (b64_of_Z 56) (b64_of_Z 64) latitude
       && range_contains (b64_of_Z 3) (b64_of_Z 12) longitude then 32%Z
    else if range_contains (b64_of_Z 72) (b64_of_Z 84) latitude
            && range_contains (b64_of_Z 0) (b64_of_Z 42) longitude then
      (if SpecFloat.SFltb longitude (b64_of_Z 9) then 31%Z
       else if SpecFloat.SFltb longitude (b64_of_Z 21) then 33%Z
       else if SpecFloat.SFltb longitude (b64_of_Z 33) then 35%Z
       else 37%Z)
    else (b64_as_i32 (b64_div (b64_add longitude (b64_of_Z 180)) (b64_of_Z 6)) + 1)%Z in
  let letter_index := b64_as_usize (b64_div (b64_add latitude (b64_of_Z 96)) (b64_of_Z 8)) in
  let zone_letter :=
    match String.get (Z.to_nat (Z.min letter_index (Z.of_nat (String.length UTM_ZONE_LETTERS) - 1)))
                     UTM_ZONE_LETTERS with
    | Some c => c
    | None => "X"%char
    end in
  z_to_string zone_number ++ String zone_letter EmptyString.

Definition set_result (tm : TransverseMercator) (n e : Q) : TransverseMercator :=
  mkTM (mkResult n e (zone (tm_result tm))) (tm_ellipsoid tm) (tm_params tm).

(** [TransverseMercator::lat_lon_to_ch1903]: the success flag and the
    updated object. *)
Definition lat_lon_to_ch1903 (tm : TransverseMercator) (latitude longitude : Q)
  : bool * TransverseMercator :=
  if negb (Qle_bool 45.5 latitude && Qle_bool latitude 48)
     || negb (Qle_bool 5 longitude && Qle_bool longitude 11)
  then (false, set_result tm 0 0)
  else
    let lat_aux := (latitude * 3600 - 169028.66) / 10000 in
    let lon_aux := (longitude * 3600 - 26782.5) / 10000 in
    let n := 200147.07
             + 308807.95 * lat_aux
             + 3745.25 * (lon_aux * lon_aux)
             + 76.63 * (lat_aux * lat_aux)
             - 194.56 * (lon_aux * lon_aux) * lat_aux
             + 119.79 * (lat_aux * lat_aux * lat_aux) in
    let e := 600072.37 + 211455.93 * lon_aux
             - 10938.51 * lon_aux * lat_aux
             - 0.36 * lon_aux * (lat_aux * lat_aux)
             - 44.54 * (lon_aux * lon_aux * lon_aux) in
    (true, set_result tm n e).

(* ------------------------------------------------------------------ *)
(** ** Scale derivation (map_sources.rs, misc_map_source_values.rs) *)




(** Number of factors [b] in [d], and what is left. *)
Fixpoint strip_factor (fuel : nat) (d b : Z) : Z * nat :=
  match fuel with
  | O => (d, O)
  | S f =>
      if (1 <? d)%Z && (d mod b =? 0)%Z
      then let '(r, k) := strip_factor f (d / b) b in (r, S k)
      else (d, O)
  end.

Fixpoint zeros (n : nat) : string :=
  match n with O => EmptyString | S m => String "0" (zeros m) end.

(** [N / 10^k] in decimal, [k] fractional digits, trailing zeros dropped. *)
Definition decimal_string (N : Z) (k : nat) : string :=
  let ds := z_to_string N in
  let ds := zeros (k + 1 - String.length ds) ++ ds in
  let ip := substring 0 (String.length ds - k) ds in
  let fp := substring (String.length ds - k) k ds in
  let fix trim (l : list ascii) :=
    match l with "0"%char :: r => trim r | _ => l end in
  let fp := String.string_of_list_ascii (rev (trim (rev (list_ascii_of_string fp)))) in
  match fp with EmptyString => ip | _ => ip ++ "." ++ fp end.

(** [Display] of a finite value: exact when the value has a terminating
    decimal expansion (Rust prints such short decimals exactly and never
    uses an exponent); otherwise 17 fractional digits, truncated. *)
Definition fmt_Q (q : Q) : string :=
  let q := Qred q in
  let n := Qnum q in
  let d := Zpos (Qden q) in
  let '(d2, a) := strip_factor 64 d 2 in
  let '(d5, b) := strip_factor 64 d2 5 in
  let sign := if (n <? 0)%Z then "-" else "" in
  if (d5 =? 1)%Z then
    let k := Nat.max a b in
    sign ++ decimal_string (Z.abs n * 10 ^ Z.of_nat k / d)%Z k
  else sign ++ decimal_string (Qfloor (Qabs q * inject_Z (10 ^ 17))) 17.

(** [x.to_string()] for an [f64]. *)
Definition f64_to_string (x : f64) : string :=
  match x with
  | F q => fmt_Q q
  | NegZero => "-0"
  | Inf false => "inf"
  | Inf true => "-inf"
  | NaN => "NaN"
  end.

(** [x / c] for a positive constant [c]. *)
Definition fdiv_pos (x : f64) (c : Q) : f64 :=
  match x with
  | F q => F (q / c)
  | y => y
  end.

(** [MapSources::scale_dim] *)
Definition scale_dim (attr : gmap string string) : gmap string string :=
  if negb (bool_decide (is_Some (attr !! "scale"))) && bool_decide (is_Some (attr !! "dim"))
  then
    match attr !! "dim" with
    | Some dim =>
        let dim_value := parse_or_zero (str_replace (str_replace dim "km" "000") "m" "") in
        <["scale" := f64_to_string (fdiv_pos dim_value 0.1)]> attr
    | None => attr
    end
  else attr.

(** The attribute map [build_output] works on after the [dim]
    conversion: [get_attr] then [scale_dim]. *)
Definition attrs_after_dim (param : string) : result (gmap string string) :=
  g <- geo_new param ;;
  Ok (scale_dim (fst (get_attr g))).

(* ------------------------------------------------------------------ *)
(** ** Definitions following the spec's words (compared with the code) *)

(** A float within [[lo, hi]]: finite and between the bounds. *)
Definition finite_in (lo hi : Q) (x : f64) : Prop :=
  match x with
  | F q => lo <= q <= hi
  | NegZero => lo <= 0 <= hi
  | _ => False
  end.

(** The degree/minute/second bounds of the spec's range validation. *)
Definition bounds_hold (p : Parsed) : Prop :=
  finite_in (-90) 90 (p_latdeg p) /\ finite_in (-360) 360 (p_londeg p) /\
  finite_in 0 60 (p_latmin p) /\ finite_in 0 60 (p_lonmin p) /\
  finite_in 0 60 (p_latsec p) /\ finite_in 0 60 (p_lonsec p).

(** The spec's layout recognition on the front of the token stream:
    a [;] in the first token, or the direction pairs at positions
    (1,3), (2,5) or (3,7) with enough tokens. *)
Definition recognized (ps : list string) : bool :=
  let t k := nth k ps "" in
  let n := List.length ps in
  match ps with
  | [] => false
  | p0 :: _ =>
      bool_decide (is_Some (find_char ";" p0))
      || ((4 <=? n)%nat && is_coor (t 1%nat) (t 3%nat))
      || ((6 <=? n)%nat && is_coor (t 2%nat) (t 5%nat))
      || ((8 <=? n)%nat && is_coor (t 3%nat) (t 7%nat))
  end.

(** The spec's three failure conditions of reading one coordinate from
    the tokens [ps], with the error each one gives. *)
Definition fails_with (ps : list string) (e : GeoError) : Prop :=
  (ps = [] /\ e = NoCoordinatesProvided) \/
  (ps <> [] /\ recognized ps = false /\ e = UnrecognizedFormat) \/
  (exists p rest, parse_coordinate_format ps = Ok (p, rest) /\ ~ bounds_hold p /\
                  e = OutOfRange).

(** [i] is a degree, minute or second position of the directional
    layout that the front of [ps] matches (first match wins). *)
Definition directional_number_position (ps : list string) (i : nat) : bool :=
  let t k := nth k ps "" in
  let n := List.length ps in
  negb (bool_decide (is_Some (find_char ";" (t 0%nat)))) &&
  (if (4 <=? n)%nat && is_coor (t 1%nat) (t 3%nat) then
     existsb (Nat.eqb i) [0; 2]%nat
   else if (6 <=? n)%nat && is_coor (t 2%nat) (t 5%nat) then
     existsb (Nat.eqb i) [0; 1; 3; 4]%nat
   else if (8 <=? n)%nat && is_coor (t 3%nat) (t 7%nat) then
     existsb (Nat.eqb i) [0; 1; 2; 4; 5; 6]%nat
   else false).

(** A [key:value] token as the spec describes it: the name before the
    first [:] (at a position >= 1), the value after it, cut before a
    parenthesised [(...)] suffix. *)
Definition kv_of (s : string) : option (string * string) :=
  match find_char ":" s with
  | Some i =>
      if (1 <=? i)%nat then
        let val := slice_from (S i) s in
        Some (slice_to i s,
              match find_char "(" val, find_char ")" val with
              | Some j, Some k => if (j <? k)%nat then slice_to j val else val
              | _, _ => val
              end)
      else None
  | None => None
  end.

(** Value of the first (leftmost in the source) [key:value] token named [k]. *)
Fixpoint first_value (k : string) (l : list string) : option string :=
  match l with
  | [] => None
  | s :: r =>
      match kv_of s with
      | Some (a, v) => if String.eqb a k then Some v else first_value k r
      | None => first_value k r
      end
  end.

(** The last (rightmost in the source) bare positive integer token. *)
Fixpoint last_bare_scale (l : list string) : option string :=
  match l with
  | [] => None
  | s :: r =>
      match last_bare_scale r with
      | Some v => Some v
      | None =>
          match kv_of s with
          | Some _ => None
          | None =>
              match parse_i32 s with
              | Some n => if (0 <? n)%Z then Some (z_to_string n) else None
              | None => None
              end
          end
      end
  end.

(** The UTM zone number as the spec words it, over exact rationals: the
    longitude normalised to [[-180, 180)], then the Norway and Svalbard
    exceptions, else the 6-degree band from -180. *)
Definition utm_zone_number_spec (latitude longitude : Q) : Z :=
  let lon := longitude - inject_Z (Qfloor ((longitude + 180) / 360)) * 360 in
  if Qle_bool 56 latitude && Qlt_bool latitude 64 && Qle_bool 3 lon && Qlt_bool lon 12
  then 32%Z
  else if Qle_bool 72 latitude && Qlt_bool latitude 84 && Qle_bool 0 lon && Qlt_bool lon 42
  then (if Qlt_bool lon 9 then 31%Z else if Qlt_bool lon 21 then 33%Z
        else if Qlt_bool lon 33 then 35%Z else 37%Z)
  else (Qfloor ((lon + 180) / 6) + 1)%Z.

(** [round()]: to nearest, halves away from zero. *)
Definition round_Q (q : Q) : Z :=
  if Qle_bool 0 q then Qfloor (q + (1 # 2)) else (- Qfloor (- q + (1 # 2)))%Z.

(* ------------------------------------------------------------------ *)
(** ** Scale defaults (map_sources.rs, misc_map_source_values.rs) *)

(** [scale_float >= c] for a finite constant [c]: false on NaN. *)
Definition fge (x : f64) (c : Q) : bool :=
  match x with
  | F q => Qle_bool c q
  | NegZero => Qle_bool c 0
  | Inf neg => negb neg
  | NaN => false
  end.

(** [MapSources::get_mmscale] *)
Definition get_mmscale (scale_float : f64) : Z :=
  if fge scale_float 30000000 then 40000000%Z
  else if fge scale_float 14000000 then 20000000%Z
  else if fge scale_float 6300000 then 10000000%Z
  else if fge scale_float 2800000 then 4000000%Z
  else if fge scale_float 1400000 then 2000000%Z
  else if fge scale_float 700000 then 1000000%Z
  else if fge scale_float 310000 then 500000%Z
  else if fge scale_float 140000 then 200000%Z
  else if fge scale_float 70000 then 100000%Z
  else if fge scale_float 35000 then 50000%Z
  else if fge scale_float 15000 then 25000%Z
  else if fge scale_float 7000 then 10000%Z
  else 5000%Z.

(** [attr.get(key).and_then(|s| s.parse::<i32>().ok()).unwrap_or(0)] *)
Definition attr_i32_or_zero (attr : gmap string string) (key : string) : Z :=
  match attr !! key with
  | Some s => match parse_i32 s with Some n => n | None => 0%Z end
  | None => 0%Z
  end.

(** The [type] table of [default_scale] (its keys are distinct, so the
    [HashMap] built from it answers as the first matching entry). *)
Definition default_scale_table : list (string * Z) :=
  [("country", 10000000%Z); ("satellite", 10000000%Z); ("state", 3000000%Z);
   ("adm1st", 1000000%Z); ("adm2nd", 300000%Z); ("adm3rd", 100000%Z);
   ("city", 100000%Z); ("isle", 100000%Z); ("mountain", 100000%Z);
   ("river", 100000%Z); ("waterbody", 100000%Z); ("event", 50000%Z);
   ("forest", 50000%Z); ("glacier", 50000%Z); ("airport", 30000%Z);
   ("railwaystation", 10000%Z); ("edu", 10000%Z); ("pass", 10000%Z);
   ("camera", 10000%Z); ("landmark", 10000%Z)].

Definition table_get (l : list (string * Z)) (k : string) : option Z :=
  option_map snd (List.find (fun e => String.eqb (fst e) k) l).

(** [MapSources::default_scale]; [p] is [self.p]. *)
Definition default_scale (p : GeoParam) (attr : gmap string string) : gmap string string :=
  let scale_int := attr_i32_or_zero attr "scale" in
  if (scale_int <=? 0)%Z then
    let default := attr_i32_or_zero attr "default" in
    let default :=
      if (default =? 0)%Z then
        match attr !! "type" with
        | Some type_attr =>
            match table_get default_scale_table type_attr with
            | Some scale_val => scale_val
            | None => default
            end
        | None => default
        end
      else default in
    let default :=
      if (default =? 0)%Z then
        if (List.length (coor p) =? 8)%nat then 10000%Z
        else if (List.length (coor p) =? 6)%nat then 100000%Z
        else 300000%Z
      else default in
    <["scale" := z_to_string default]> attr
  else attr.


(** [str::is_char_boundary] on the UTF-8 bytes of a string: index [i]
    is a boundary when it is the length, or the byte there is not a
    continuation byte ([0x80..0xBF]). *)
Definition is_char_boundary (s : string) (i : nat) : bool :=
  match String.get i s with
  | Some c => negb ((128 <=? nat_of_ascii c) && (nat_of_ascii c <? 192))%nat
  | None => Nat.eqb i (String.length s)
  end.

(** [MapSources::get_region]: the value it returns ([src] is built but
    not used); [None] when [reg[..2.min(reg.len())]] panics, its end not
    being a character boundary.  [to_uppercase] is taken on ASCII text,
    where it is [ascii_upper] on each byte. *)
Definition get_region (attr : gmap string string) : option string :=
  match attr !! "page" with
  | Some _ => Some ""
  | None =>
      match attr !! "globe" with
      | Some _ => Some ""
      | None =>
          match attr !! "region" with
          | Some reg =>
              if String.eqb reg "" then Some ""
              else
                let k := Nat.min 2 (String.length reg) in
                if is_char_boundary reg k
                then Some ("/" ++ to_upper_ascii (slice_to k reg))
                else None
          | None => Some ""
          end
      end
  end.

Module MiscMapSourceValues.

(** [MMSCALE_THRESHOLDS] *)
Definition MMSCALE_THRESHOLDS : list (Q * Z) :=
  [(30000000, 40000000%Z); (14000000, 20000000%Z); (6300000, 10000000%Z);
   (2800000, 4000000%Z); (1400000, 2000000%Z); (700000, 1000000%Z);
   (310000, 500000%Z); (140000, 200000%Z); (70000, 100000%Z);
   (35000, 50000%Z); (15000, 25000%Z); (7000, 10000%Z)].

(** [MiscMapSourceValues::get_mmscale] *)
Definition get_mmscale (scale_float : f64) : Z :=
  match List.find (fun e => fge scale_float (fst e)) MMSCALE_THRESHOLDS with
  | Some (_, scale) => scale
  | None => 5000%Z
  end.

(** [MiscMapSourceValues::region_string] (the same expression is used
    inline in [MapSources::replace_in_page]). *)
Definition region_string (attr : gmap string string) : string :=
  match attr !! "region" with
  | Some r =>
      if (4 <=? String.length r)%nat
      then to_upper_ascii (slice 4 (Nat.min (String.length r) 12) r)
      else ""
  | None => ""
  end.

End MiscMapSourceValues.

(* ------------------------------------------------------------------ *)
(** ** Grid references and zones (traverse_mercator.rs) *)

Definition OSGB36_LETTERS : string := "ABCDEFGHJKLMNOPQRSTUVWXYZ".

(** [s.chars().nth(i as usize)] on an ASCII string for an [i32] index:
    a negative index converts to a [usize] beyond any string length. *)
Definition nth_char_i32 (s : string) (i : Z) : option ascii :=
  if (i <? 0)%Z then None else String.get (Z.to_nat i) s.

(** [x.floor() as i32] *)
Definition floor_as_i32 (x : Q) : Z := as_i32 (inject_Z (Qfloor x)).

(** [format!("{:05}", n)] for an [i32]: at least five characters, zero
    padded after the sign. *)
Definition pad5 (n : Z) : string :=
  let sign := if (n <? 0)%Z then "-" else "" in
  let digits := z_to_string (Z.abs n) in
  sign ++ zeros (5 - String.length sign - String.length digits) ++ digits.

(** [TransverseMercator::format_osgb36_reference] *)
Definition format_osgb36_reference (tm : TransverseMercator) : string :=
  let e := easting (tm_result tm) in
  let n := northing (tm_result tm) in
  let grid_x := floor_as_i32 (e / 100000) in
  let grid_y := floor_as_i32 (n / 100000) in
  if negb ((0 <=? grid_x)%Z && (grid_x <=? 6)%Z) || negb ((0 <=? grid_y)%Z && (grid_y <=? 12)%Z)
  then ""
  else
    let c1_index := (17 - Z.quot grid_y 5 * 5 + Z.quot grid_x 5)%Z in
    let c2_index := (20 - Z.rem grid_y 5 * 5 + Z.rem grid_x 5)%Z in
    let c1 := match nth_char_i32 OSGB36_LETTERS c1_index with Some c => c | None => "X"%char end in
    let c2 := match nth_char_i32 OSGB36_LETTERS c2_index with Some c => c | None => "X"%char end in
    let easting_digits := Z.rem (as_i32 e) 100000 in
    let northing_digits := Z.rem (as_i32 n) 100000 in
    String c1 (String c2 (pad5 easting_digits ++ pad5 northing_digits)).

(* ------------------------------------------------------------------ *)
(** ** Degrees, minutes and seconds (geo_param.rs, min_sec_result.rs) *)

Record MinSecResult : Type := mkMinSec {
  ms_deg : Q;
  ms_min : Q;
  ms_sec : Q;
  ms_ns : string;
  ms_ew : string
}.

(** [GeoParam::make_minsec] (and [MinSecResult::new], the same code). *)
Definition make_minsec (deg : Q) : MinSecResult :=
  let '(ns, ew) := if Qle_bool 0 deg then ("N", "E") else ("S", "W") in
  let deg_rounded := inject_Z (round_Q (deg * 1000000)) / 1000000 in
  let min := 60 * (Qabs deg_rounded - inject_Z (Qfloor (Qabs deg_rounded))) in
  let min_rounded := inject_Z (round_Q (min * 10000)) / 10000 in
  let sec := 60 * (min_rounded - inject_Z (Qfloor min_rounded)) in
  let sec_rounded := inject_Z (round_Q (sec * 100)) / 100 in
  mkMinSec deg_rounded min_rounded sec_rounded ns ew.

(** UTF-8 bytes of the symbols of the markup. *)
Definition DEG : string := String (ascii_of_nat 194) (String (ascii_of_nat 176) EmptyString).
Definition NBSP : string := String (ascii_of_nat 194) (String (ascii_of_nat 160) EmptyString).
Definition PRIME : string :=
  String (ascii_of_nat 226) (String (ascii_of_nat 128) (String (ascii_of_nat 178) EmptyString)).
Definition DPRIME : string :=
  String (ascii_of_nat 226) (String (ascii_of_nat 128) (String (ascii_of_nat 179) EmptyString)).

(** [x != 0.0] *)
Definition fneq0 (x : Q) : bool := negb (Qeq_bool x 0).

(** [GeoParam::make_position] *)
Definition make_position (lat lon : Q) : string :=
  let latdms := make_minsec lat in
  let londms := make_minsec lon in
  let outlat := z_to_string (as_i32 (Qabs (ms_deg latdms))) ++ DEG ++ NBSP in
  let outlon := z_to_string (as_i32 (Qabs (ms_deg londms))) ++ DEG ++ NBSP in
  let '(outlat, outlon) :=
    if fneq0 (ms_min latdms) || fneq0 (ms_min londms)
       || fneq0 (ms_sec latdms) || fneq0 (ms_sec londms) then
      let outlat := outlat ++ z_to_string (as_i32 (ms_min latdms)) ++ PRIME ++ NBSP in
      let outlon := outlon ++ z_to_string (as_i32 (ms_min londms)) ++ PRIME ++ NBSP in
      if fneq0 (ms_sec latdms) || fneq0 (ms_sec londms) then
        (outlat ++ f64_to_string (F (ms_sec latdms)) ++ DPRIME ++ NBSP,
         outlon ++ f64_to_string (F (ms_sec londms)) ++ DPRIME ++ NBSP)
      else (outlat, outlon)
    else (outlat, outlon) in
  outlat ++ ms_ns latdms ++ " " ++ outlon ++ ms_ew londms.

(** The string stored in [coor]. *)
Definition coor_string (l : CoorLit) : string :=
  match l with
  | LNum x => f64_to_string x
  | LDir s => s
  end.

(** [GeoParam::get_markup]: [inr] carries the [anyhow!] message. *)
Definition get_markup (g : GeoParam) : string + string :=
  match map coor_string (coor g) with
  | [] =>
      inl (make_position (latdeg_min g) (londeg_min g) ++ " to "
           ++ make_position (latdeg_max g) (londeg_max g))
  | [c0; c1] => inl (c0 ++ ";" ++ c1)
  | [c0; c1; c2; c3] => inl (c0 ++ DEG ++ NBSP ++ c1 ++ " " ++ c2 ++ DEG ++ NBSP ++ c3)
  | [c0; c1; c2; c3; c4; c5] =>
      inl (c0 ++ DEG ++ c1 ++ PRIME ++ NBSP ++ c2 ++ " "
           ++ c3 ++ DEG ++ c4 ++ PRIME ++ NBSP ++ c5)
  | [c0; c1; c2; c3; c4; c5; c6; c7] =>
      inl (c0 ++ DEG ++ c1 ++ PRIME ++ c2 ++ DPRIME ++ NBSP ++ c3 ++ " "
           ++ c4 ++ DEG ++ c5 ++ PRIME ++ c6 ++ DPRIME ++ NBSP ++ c7)
  | _ => inr "Invalid coordinate length"
  end.

(** [CoordinateGroup] (map_sources.rs) *)
Record CoordinateGroup : Type := mkCG {
  cg_lat : MinSecResult;
  cg_lon : MinSecResult;
  latdegint : string;
  londegint : string;
  latdeground : string;
  londeground : string;
  latdeg_outer_abs : Z;
  londeg_outer_abs : Z;
  longantipodes : Q
}.

(** [CoordinateGroup::new] *)
Definition coordinate_group_new (p : GeoParam) : CoordinateGroup :=
  let lat := make_minsec (latdeg p) in
  let lon := make_minsec (londeg p) in
  let latdegint :=
    if Qlt_bool (latdeg p) 0 && (as_i32 (ms_deg lat) =? 0)%Z then "-0"
    else z_to_string (as_i32 (ms_deg lat)) in
  let londegint :=
    if Qlt_bool (londeg p) 0 && (as_i32 (ms_deg lon) =? 0)%Z then "-0"
    else z_to_string (as_i32 (ms_deg lon)) in
  let latdeground :=
    if Qlt_bool (latdeg p) 0 && (as_i32 (inject_Z (round_Q (ms_deg lat))) =? 0)%Z then "-0"
    else f64_to_string (F (inject_Z (round_Q (ms_deg lat)))) in
  let londeground :=
    if Qlt_bool (londeg p) 0 && (as_i32 (inject_Z (round_Q (ms_deg lon))) =? 0)%Z then "-0"
    else f64_to_string (F (inject_Z (round_Q (ms_deg lon)))) in
  let latdeg_outer_abs := as_i32 (inject_Z (Qceiling (Qabs (ms_deg lat)))) in
  let londeg_outer_abs := as_i32 (inject_Z (Qceiling (Qabs (ms_deg lon)))) in
  let longantipodes :=
    if Qlt_bool 0 (ms_deg lon) then ms_deg lon - 180 else ms_deg lon + 180 in
  mkCG lat lon latdegint londegint latdeground londeground
       latdeg_outer_abs londeg_outer_abs longantipodes.

(* ------------------------------------------------------------------ *)
(** ** Helpers for the proofs *)

(** Value of a list of decimal digits read after the value [v]. *)
Definition digits_value (l : list ascii) (v : Z) : Z :=
  fold_left (fun v c => 10 * v + digit_val c)%Z l v.

(** A threshold table whose results decrease and stay above the
    default. *)
Fixpoint chain_ok (l : list (Q * Z)) (dflt : Z) : bool :=
  match l with
  | [] => true
  | (c, v) :: r => forallb (fun e => (snd e <=? v)%Z) r && (dflt <=? v)%Z && chain_ok r dflt
  end.

(** The two letters [format_osgb36_reference] gives the 100 km square
    [(grid_x, grid_y)]. *)
Definition osgb36_square_letters (grid_x grid_y : Z) : ascii * ascii :=
  (match nth_char_i32 OSGB36_LETTERS (17 - Z.quot grid_y 5 * 5 + Z.quot grid_x 5)%Z with
   | Some c => c | None => "X"%char end,
   match nth_char_i32 OSGB36_LETTERS (20 - Z.rem grid_y 5 * 5 + Z.rem grid_x 5)%Z with
   | Some c => c | None => "X"%char end).

(** All pairs of squares of the grid with equal letters are equal. *)
Definition osgb36_letters_check : bool :=
  forallb (fun a => forallb (fun b => forallb (fun a' => forallb (fun b' =>
    let '(c1, c2) := osgb36_square_letters (Z.of_nat a) (Z.of_nat b) in
    let '(d1, d2) := osgb36_square_letters (Z.of_nat a') (Z.of_nat b') in
    negb (Ascii.eqb c1 d1 && Ascii.eqb c2 d2) || (Nat.eqb a a' && Nat.eqb b b'))
    (seq 0 13)) (seq 0 7)) (seq 0 13)) (seq 0 7).

(** The numbers of coordinate strings [get_markup] formats. *)
Definition coor_len_ok (n : nat) : Prop := n = 2%nat \/ n = 4%nat \/ n = 6%nat \/ n = 8%nat.

(* ------------------------------------------------------------------ *)
(** ** Arithmetic lemmas *)

Lemma Qlt_bool_iff (a b : Q) : Qlt_bool a b = true <-> a < b.
Proof.
  unfold Qlt_bool. rewrite negb_true_iff. split; intro H.
  - apply Qnot_le_lt. intro Hle. apply Qle_bool_iff in Hle. congruence.
  - destruct (Qle_bool b a) eqn:E; [|reflexivity].
    apply Qle_bool_iff in E. exfalso. apply (Qlt_not_le a b); assumption.
Qed.

Lemma Qle_bool_false (a b : Q) : Qle_bool a b = false <-> b < a.
Proof.
  split; intro H.
  - apply Qnot_le_lt. intro Hle. apply Qle_bool_iff in Hle. congruence.
  - destruct (Qle_bool a b) eqn:E; [|reflexivity].
    apply Qle_bool_iff in E. exfalso. apply (Qlt_not_le b a); assumption.
Qed.

Lemma floor_bounds (q : Q) : inject_Z (Qfloor q) <= q /\ q < inject_Z (Qfloor q) + 1.
Proof.
  split; [apply Qfloor_le|].
  pose proof (Qlt_floor q) as H. rewrite inject_Z_plus in H. exact H.
Qed.

Lemma floor_nonneg (q : Q) : 0 <= q -> (0 <= Qfloor q)%Z.
Proof.
  intro H. change 0%Z with (Qfloor 0). apply Qfloor_resp_le. exact H.
Qed.

Lemma trunc_nonneg (q : Q) : 0 <= q -> trunc_Q q = Qfloor q.
Proof.
  intro H. unfold trunc_Q. apply Qle_bool_iff in H. rewrite H. reflexivity.
Qed.

Lemma floor_lt_Z (q : Q) (z : Z) : q < inject_Z z -> (Qfloor q < z)%Z.
Proof.
  intro H. destruct (floor_bounds q) as [H1 _].
  rewrite Zlt_Qlt. apply (Qle_lt_trans _ q); assumption.
Qed.

Lemma Z_le_floor (q : Q) (z : Z) : inject_Z z <= q -> (z <= Qfloor q)%Z.
Proof.
  intro H. rewrite <- (Qfloor_Z z). apply Qfloor_resp_le. exact H.
Qed.

Lemma as_i32_floor (q : Q) : 0 <= q -> q < 2147483647 -> as_i32 q = Qfloor q.
Proof.
  intros H0 H1. unfold as_i32. rewrite trunc_nonneg by exact H0.
  pose proof (floor_nonneg q H0).
  assert (Qfloor q < 2147483647)%Z by (apply floor_lt_Z; exact H1).
  lia.
Qed.

(** Turns the boolean comparisons in the context into propositions. *)
Ltac qbool_to_prop :=
  repeat match goal with
  | E : Qle_bool _ _ = true |- _ => apply Qle_bool_iff in E
  | E : Qle_bool _ _ = false |- _ => apply Qle_bool_false in E
  | E : Qlt_bool _ _ = true |- _ => apply Qlt_bool_iff in E
  end.

(** Division by a positive integer constant as multiplication by its
    inverse, which [lra] reads as a linear coefficient. *)
Ltac qinv_consts :=
  unfold Qdiv in *;
  repeat match goal with
  | |- context [Qinv (Qmake (Zpos ?p) 1)] =>
      change (Qinv (Qmake (Zpos p) 1)) with (Qmake 1 p)
  | H : context [Qinv (Qmake (Zpos ?p) 1)] |- _ =>
      change (Qinv (Qmake (Zpos p) 1)) with (Qmake 1 p) in H
  end.

(* ------------------------------------------------------------------ *)
(** ** UTM zone (C6) *)

(** C6: the zone number of [compute_utm_zone] is not the 6-degree band of
    the normalised longitude at the antimeridian.  In binary64,
    [normalize_longitude] maps 179.99999999999997 (= 180 - 2^-45) to
    -180.00000000000003, outside its documented range [[-180, 180)], and
    maps -180.00000000000003 back to 179.99999999999997, where
    [(lon + 180) / 6] rounds to 60.  So at latitude 0 the first longitude
    gets zone 1 (["1N"]) and the second the nonexistent zone 61 (["61N"]),
    while the banding of the exactly normalised longitude gives zone 60 to
    both.  The documented examples hold: (40, -74) starts with ["18"] and
    (0, 0) with ["31"]. *)
Theorem compute_utm_zone_antimeridian :
  let lon_a := SpecFloat.S754_finite false 6333186975989759 (-45) in
  let lon_b := SpecFloat.S754_finite true 6333186975989761 (-45) in
  b64_value lon_a = Some (6333186975989759 # 35184372088832) /\
  (6333186975989759 # 35184372088832) == 180 - (1 # 35184372088832) /\
  b64_value lon_b = Some (- 6333186975989761 # 35184372088832) /\
  (- 6333186975989761 # 35184372088832) == - 180 - (1 # 35184372088832) /\
  normalize_longitude lon_a = lon_b /\
  normalize_longitude lon_b = lon_a /\
  utm_zone_number_spec 0 (6333186975989759 # 35184372088832) = 60%Z /\
  utm_zone_number_spec 0 (- 6333186975989761 # 35184372088832) = 60%Z /\
  compute_utm_zone (b64_of_Z 0) lon_a = "1N" /\
  compute_utm_zone (b64_of_Z 0) lon_b = "61N" /\
  String.prefix "18" (compute_utm_zone (b64_of_Z 40) (b64_of_Z (-74))) = true /\
  String.prefix "31" (compute_utm_zone (b64_of_Z 0) (b64_of_Z 0)) = true.
Proof.
  intros lon_a lon_b.
  repeat split; vm_compute; reflexivity.
Qed.

(* ------------------------------------------------------------------ *)
(** ** CH1903 (C7) *)

(** C7: [lat_lon_to_ch1903] reports success exactly for latitudes in
    [[45.5, 48]] and longitudes in [[5, 11]]; when it reports failure it
    sets northing and easting to 0; for Bern (46.9480, 7.4474) it succeeds
    with northing > 100000 and easting > 500000. *)
Theorem lat_lon_to_ch1903_domain (tm : TransverseMercator) (latitude longitude : Q) :
  (fst (lat_lon_to_ch1903 tm latitude longitude) = true
     <-> (45.5 <= latitude <= 48 /\ 5 <= longitude <= 11))
  /\ (fst (lat_lon_to_ch1903 tm latitude longitude) = false ->
      northing (tm_result (snd (lat_lon_to_ch1903 tm latitude longitude))) == 0
      /\ easting (tm_result (snd (lat_lon_to_ch1903 tm latitude longitude))) == 0)
  /\ (fst (lat_lon_to_ch1903 tm 46.9480 7.4474) = true
      /\ 100000 < northing (tm_result (snd (lat_lon_to_ch1903 tm 46.9480 7.4474)))
      /\ 500000 < easting (tm_result (snd (lat_lon_to_ch1903 tm 46.9480 7.4474)))).
Proof.
  split; [|split].
  - unfold lat_lon_to_ch1903.
    destruct (Qle_bool 45.5 latitude) eqn:E1; destruct (Qle_bool latitude 48) eqn:E2;
      destruct (Qle_bool 5 longitude) eqn:E3; destruct (Qle_bool longitude 11) eqn:E4;
      cbn [andb orb negb fst];
      qbool_to_prop;
      split; intro H; try discriminate; try tauto;
      destruct H as [[? ?] [? ?]]; lra.
  - unfold lat_lon_to_ch1903.
    destruct (negb _ || negb _); cbn; [intros _; split; reflexivity | discriminate].
  - split; [reflexivity|]. split; vm_compute; reflexivity.
Qed.

(* ------------------------------------------------------------------ *)
(** ** Altitude (C8) *)



(* ------------------------------------------------------------------ *)
(** ** Coordinate parsing: range validation and conversion *)

Lemma range_incl_iff (lo hi : Q) (x : f64) :
  range_incl_contains lo hi x = true <-> finite_in lo hi x.
Proof.
  destruct x; cbn; try (split; [discriminate | contradiction]);
    rewrite andb_true_iff, !Qle_bool_iff; tauto.
Qed.

Lemma finite_in_fval (lo hi : Q) (x : f64) : finite_in lo hi x -> lo <= fval x <= hi.
Proof. destruct x; cbn; tauto. Qed.

Lemma validate_ranges_iff (p : Parsed) : validate_ranges p = true <-> bounds_hold p.
Proof.
  unfold validate_ranges, bounds_hold. rewrite !andb_true_iff, !range_incl_iff. tauto.
Qed.

Lemma direction_factor_cases (d n : string) :
  direction_factor d n = -1 \/ direction_factor d n = 1.
Proof. unfold direction_factor. destruct (eq_ignore_ascii_case d n); auto. Qed.

Lemma copysign_cases (x : Q) (y : f64) : 0 <= x -> copysign x y == x \/ copysign x y == - x.
Proof.
  intro H. unfold copysign. pose proof (Qabs_pos x H).
  destruct (fsign_neg y); [right | left]; lra.
Qed.

(** One converted coordinate stays within its degree bound plus 61/60
    (minutes and seconds can add up to 60 + 60/60 minutes). *)
Lemma convert_to_decimal_degrees_bound (p : Parsed) :
  bounds_hold p ->
  -(90 + 61 / 60) <= fst (convert_to_decimal_degrees p) <= 90 + 61 / 60 /\
  -(360 + 61 / 60) <= snd (convert_to_decimal_degrees p) <= 360 + 61 / 60.
Proof.
  intros (H1 & H2 & H3 & H4 & H5 & H6).
  apply finite_in_fval in H1, H2, H3, H4, H5, H6.
  repeat match goal with H : _ /\ _ |- _ => destruct H end.
  unfold convert_to_decimal_degrees; cbn [fst snd]. qinv_consts.
  set (mla := fval (p_latmin p) + fval (p_latsec p) * (1 # 60)).
  set (mlo := fval (p_lonmin p) + fval (p_lonsec p) * (1 # 60)).
  assert (Hla : 0 <= mla <= 61) by (unfold mla; split; lra).
  assert (Hlo : 0 <= mlo <= 61) by (unfold mlo; split; lra).
  destruct (copysign_cases mla (p_latdeg p) (proj1 Hla)) as [Ca | Ca];
  destruct (copysign_cases mlo (p_londeg p) (proj1 Hlo)) as [Co | Co];
  destruct (direction_factor_cases (p_lat_ns p) "S") as [Fa | Fa]; rewrite Fa;
  destruct (direction_factor_cases (p_lon_ew p) "W") as [Fo | Fo]; rewrite Fo;
  split; lra.
Qed.

Lemma get_coor_keeps (g g' : GeoParam) :
  get_coor g = Ok g' ->
  latdeg_min g' = latdeg_min g /\ latdeg_max g' = latdeg_max g /\
  londeg_min g' = londeg_min g /\ londeg_max g' = londeg_max g.
Proof.
  unfold get_coor. destruct (pieces g) as [|p0 ps]; [discriminate|].
  destruct (parse_coordinate_format (p0 :: ps)) as [[p rest]|e]; cbn [rbind]; [|discriminate].
  destruct (validate_ranges p); [|discriminate].
  destruct (convert_to_decimal_degrees p). intro H. injection H as <-. auto.
Qed.

Lemma get_coor_bound (g g' : GeoParam) :
  get_coor g = Ok g' ->
  -(90 + 61 / 60) <= latdeg g' <= 90 + 61 / 60 /\
  -(360 + 61 / 60) <= londeg g' <= 360 + 61 / 60.
Proof.
  unfold get_coor. destruct (pieces g) as [|p0 ps]; [discriminate|].
  destruct (parse_coordinate_format (p0 :: ps)) as [[p rest]|e]; cbn [rbind]; [|discriminate].
  destruct (validate_ranges p) eqn:V; [|discriminate].
  apply validate_ranges_iff in V. apply convert_to_decimal_degrees_bound in V.
  destruct (convert_to_decimal_degrees p) as [la lo]. cbn in V.
  intro H. injection H as <-. exact V.
Qed.

(** The two ways [GeoParam::new] can succeed: one coordinate, or a
    range [... to ...]. *)
Lemma geo_from_pieces_inv (ps : list string) (g : GeoParam) :
  geo_from_pieces ps = Ok g ->
  exists g1, get_coor (set_pieces geo_default ps) = Ok g1 /\
    (g = init_min_max g1 \/
     exists rest g2, pieces g1 = "to" :: rest /\
       get_coor (set_pieces (init_min_max g1) rest) = Ok g2 /\
       g = update_range_bounds g2).
Proof.
  unfold geo_from_pieces.
  destruct (get_coor (set_pieces geo_default ps)) as [g1|e]; cbn [rbind]; [|discriminate].
  intro H. exists g1. split; [reflexivity|].
  cbn [pieces init_min_max] in H.
  destruct (pieces g1) as [|s rest] eqn:P; [injection H as <-; left; reflexivity|].
  destruct (string_dec s "to") as [->|Hs].
  - right. exists rest. cbv beta iota in H.
    destruct (get_coor _) as [g2|e]; cbn [rbind] in H; [|discriminate].
    injection H as <-. eauto.
  - left. revert H.
    repeat match goal with |- context [match ?x with _ => _ end] => is_var x; destruct x end;
      try (intro H; injection H as <-; reflexivity); congruence.
Qed.

Lemma geo_from_pieces_to (ps rest : list string) (g1 : GeoParam) :
  get_coor (set_pieces geo_default ps) = Ok g1 -> pieces g1 = "to" :: rest ->
  geo_from_pieces ps =
    (g2 <- get_coor (set_pieces (init_min_max g1) rest) ;; Ok (update_range_bounds g2)).
Proof.
  intros H P. unfold geo_from_pieces. rewrite H. cbn [rbind pieces init_min_max].
  rewrite P. reflexivity.
Qed.

(** C1 (as worded): "90 30 N 0 0 E" passes the component checks, and
    the combined latitude 90.5 exceeds 90. *)
Lemma geo_new_latitude_above_90 :
  exists g, geo_new "90 30 N 0 0 E" = Ok g /\ 90 < latdeg g.
Proof. vm_compute. eexists. split; [reflexivity|]. reflexivity. Qed.

(** C1: whenever [GeoParam::new] succeeds, the latitude lies within
    [-(90 + 61/60), 90 + 61/60] and the longitude within
    [-(360 + 61/60), 360 + 61/60]: the checks bound the degree, minute
    and second components separately, not the combined value. *)
Theorem geo_new_bounded (param : string) (g : GeoParam) :
  geo_new param = Ok g ->
  -(90 + 61 / 60) <= latdeg g <= 90 + 61 / 60 /\
  -(360 + 61 / 60) <= londeg g <= 360 + 61 / 60.
Proof.
  unfold geo_new. intro H. apply geo_from_pieces_inv in H.
  destruct H as (g1 & E1 & [-> | (rest & g2 & P & E2 & ->)]).
  - apply get_coor_bound in E1. exact E1.
  - pose proof (get_coor_bound _ _ E1) as B1.
    pose proof (get_coor_bound _ _ E2) as B2.
    pose proof (get_coor_keeps _ _ E2) as (K1 & K2 & K3 & K4).
    cbn [set_pieces init_min_max latdeg_min latdeg_max londeg_min londeg_max] in K1, K2, K3, K4.
    unfold update_range_bounds.
    rewrite K1, K2, K3, K4.
    repeat match goal with H : _ /\ _ |- _ => destruct H end.
    destruct (Qlt_bool (latdeg g2) (latdeg g1)); destruct (Qlt_bool (londeg g2) (londeg g1));
      cbn [latdeg londeg]; qinv_consts; repeat split; lra.
Qed.

Lemma geo_new_bounded_witness :
  geo_new "90 30 N 0 0 E" =
    Ok (mkGeo (325800 # 3600) (0 # 3600) (325800 # 3600) (0 # 3600)
              (325800 # 3600) (0 # 3600) []
              [LNum (F 90); LNum (F 30); LDir "N"; LNum (F 0); LNum (F 0); LDir "E"]) /\
  -(90 + 61 / 60) <= 325800 # 3600 <= 90 + 61 / 60 /\
  -(360 + 61 / 60) <= 0 # 3600 <= 360 + 61 / 60.
Proof.
  split; [vm_compute; reflexivity|].
  exact (geo_new_bounded "90 30 N 0 0 E" _ ltac:(vm_compute; reflexivity)).
Defined.

Lemma Qlt_bool_false (a b : Q) : Qlt_bool a b = false -> b <= a.
Proof.
  unfold Qlt_bool. intro H. apply Qle_bool_iff. destruct (Qle_bool b a); auto.
Qed.

(** C3: a range [A to B] whose two coordinates parse gives the smaller
    latitude as [lat_min] and the larger as [lat_max] (the same for the
    longitude, independently), the midpoints as the point, and an empty
    literal cache; "40 N 74 W to 41 N 73 W" gives 40, 41, 40.5 and
    -74, -73, -73.5. *)
Theorem geo_new_range :
  (forall (param : string) (rest : list string) (g1 g2 : GeoParam),
     get_coor (set_pieces geo_default (tokenize param)) = Ok g1 ->
     pieces g1 = "to" :: rest ->
     get_coor (set_pieces (init_min_max g1) rest) = Ok g2 ->
     exists g, geo_new param = Ok g /\
       latdeg_min g == Qmin (latdeg g1) (latdeg g2) /\
       latdeg_max g == Qmax (latdeg g1) (latdeg g2) /\
       londeg_min g == Qmin (londeg g1) (londeg g2) /\
       londeg_max g == Qmax (londeg g1) (londeg g2) /\
       latdeg g == (latdeg_min g + latdeg_max g) / 2 /\
       londeg g == (londeg_min g + londeg_max g) / 2 /\
       coor g = []) /\
  (exists g, geo_new "40 N 74 W to 41 N 73 W" = Ok g /\
     latdeg_min g == 40 /\ latdeg_max g == 41 /\ latdeg g == 40.5 /\
     londeg_min g == -74 /\ londeg_max g == -73 /\ londeg g == -73.5).
Proof.
  split.
  - intros param rest g1 g2 E1 P E2.
    unfold geo_new. rewrite (geo_from_pieces_to _ _ _ E1 P), E2. cbn [rbind].
    eexists. split; [reflexivity|].
    pose proof (get_coor_keeps _ _ E2) as (K1 & K2 & K3 & K4).
    cbn [set_pieces init_min_max latdeg_min latdeg_max londeg_min londeg_max] in K1, K2, K3, K4.
    unfold update_range_bounds. rewrite K1, K2, K3, K4.
    destruct (Qlt_bool (latdeg g2) (latdeg g1)) eqn:A;
    destruct (Qlt_bool (londeg g2) (londeg g1)) eqn:O;
      repeat match goal with
      | E : Qlt_bool _ _ = true |- _ => apply Qlt_bool_iff, Qlt_le_weak in E
      | E : Qlt_bool _ _ = false |- _ => apply Qlt_bool_false in E
      end;
      cbn [latdeg londeg latdeg_min latdeg_max londeg_min londeg_max coor];
      rewrite ?(Q.min_r (latdeg g1)), ?(Q.max_l (latdeg g1)),
              ?(Q.min_r (londeg g1)), ?(Q.max_l (londeg g1)),
              ?(Q.min_l (latdeg g1)), ?(Q.max_r (latdeg g1)),
              ?(Q.min_l (londeg g1)), ?(Q.max_r (londeg g1)) by assumption;
      repeat split; try reflexivity; unfold Qdiv; ring.
  - vm_compute. eexists. split; [reflexivity|]. repeat split; reflexivity.
Qed.

Lemma geo_new_range_witness :
  exists g, geo_new "40 N 74 W to 41 N 73 W" = Ok g /\
    latdeg_min g == Qmin 40 41 /\ latdeg_max g == Qmax 40 41.
Proof.
  destruct (proj1 geo_new_range "40 N 74 W to 41 N 73 W" ["41"; "N"; "73"; "W"]
              (mkGeo (144000 # 3600) (-266400 # 3600) 0 0 0 0 ["to"; "41"; "N"; "73"; "W"]
                     [LNum (F 40); LDir "N"; LNum (F 74); LDir "W"])
              (mkGeo (147600 # 3600) (-262800 # 3600) (144000 # 3600) (-266400 # 3600)
                     (144000 # 3600) (-266400 # 3600) []
                     [LNum (F 41); LDir "N"; LNum (F 73); LDir "W"])
              ltac:(vm_compute; reflexivity) eq_refl ltac:(vm_compute; reflexivity))
    as (g & E & H1 & H2 & _).
  exists g. split; [exact E|]. split; [rewrite H1 | rewrite H2]; reflexivity.
Defined.

Lemma parse_coordinate_format_unrecognized (ps : list string) :
  ps <> [] -> recognized ps = false <-> parse_coordinate_format ps = Err UnrecognizedFormat.
Proof.
  intro N. destruct ps as [|a0 ps]; [congruence|].
  unfold recognized, parse_coordinate_format, layout_deg, layout_deg_min, layout_deg_min_sec.
  destruct (find_char ";" a0) eqn:F; cbn.
  - split; discriminate.
  - destruct ps as [|a1 [|a2 [|a3 [|a4 [|a5 [|a6 [|a7 r]]]]]]]; cbn;
      repeat match goal with |- context [is_coor ?x ?y] => destruct (is_coor x y) end;
      cbn; split; congruence.
Qed.

Lemma parse_coordinate_format_err (ps : list string) (e : GeoError) :
  parse_coordinate_format ps = Err e -> e = UnrecognizedFormat.
Proof.
  unfold parse_coordinate_format.
  destruct ps as [|a0 ps]; [congruence|].
  destruct (find_char ";" a0); [discriminate|].
  destruct (layout_deg _); [discriminate|].
  destruct (layout_deg_min _); [discriminate|].
  destruct (layout_deg_min_sec _); congruence.
Qed.

Lemma get_coor_err (g : GeoParam) (e : GeoError) :
  get_coor g = Err e -> fails_with (pieces g) e.
Proof.
  unfold get_coor, fails_with. destruct (pieces g) as [|p0 ps] eqn:P.
  - intro H. injection H as <-. left. auto.
  - destruct (parse_coordinate_format (p0 :: ps)) as [[p rest]|e'] eqn:E; cbn [rbind].
    + destruct (validate_ranges p) eqn:V.
      * destruct (convert_to_decimal_degrees p). discriminate.
      * intro H. injection H as <-. right; right. exists p, rest. split; [reflexivity|].
        split; [|reflexivity]. rewrite <- validate_ranges_iff. congruence.
    + intro H. injection H as <-. pose proof (parse_coordinate_format_err _ _ E) as ->.
      right; left. split; [discriminate|]. split; [|reflexivity].
      apply parse_coordinate_format_unrecognized; [discriminate | exact E].
Qed.

Lemma get_coor_ok_cond (g : GeoParam) (e : GeoError) :
  fails_with (pieces g) e -> get_coor g = Err e.
Proof.
  unfold get_coor, fails_with.
  intros [(-> & ->) | [(N & R & ->) | (p & rest & E & B & ->)]].
  - reflexivity.
  - destruct (pieces g) as [|p0 ps]; [congruence|].
    apply parse_coordinate_format_unrecognized in R; [|exact N].
    rewrite R. reflexivity.
  - destruct (pieces g) as [|p0 ps]; [discriminate|].
    rewrite E. cbn [rbind].
    destruct (validate_ranges p) eqn:V; [|reflexivity].
    apply validate_ranges_iff in V. contradiction.
Qed.

(** C2: reading the first coordinate fails with [NoCoordinatesProvided]
    on an empty token list, with [UnrecognizedFormat] when no layout
    matches and with [OutOfRange] when a bound is violated; every error of
    [GeoParam::new] is one of these, for the first coordinate or for the
    second one of a range; and the three examples of the spec. *)
Theorem geo_new_errors :
  (forall param, fails_with (tokenize param) NoCoordinatesProvided ->
     geo_new param = Err NoCoordinatesProvided) /\
  (forall param, fails_with (tokenize param) UnrecognizedFormat ->
     geo_new param = Err UnrecognizedFormat) /\
  (forall param, fails_with (tokenize param) OutOfRange ->
     geo_new param = Err OutOfRange) /\
  (forall param e, geo_new param = Err e ->
     fails_with (tokenize param) e \/
     exists g1 rest, get_coor (set_pieces geo_default (tokenize param)) = Ok g1 /\
                     pieces g1 = "to" :: rest /\ fails_with rest e) /\
  geo_new "91 N 180 E" = Err OutOfRange /\
  geo_new "" = Err NoCoordinatesProvided /\
  geo_new "invalid coordinates here" = Err UnrecognizedFormat.
Proof.
  assert (first : forall param e, fails_with (tokenize param) e -> geo_new param = Err e).
  { intros param e H. unfold geo_new, geo_from_pieces.
    rewrite (get_coor_ok_cond (set_pieces geo_default (tokenize param)) e H). reflexivity. }
  split; [intro; apply first|]. split; [intro; apply first|]. split; [intro; apply first|].
  split; [|vm_compute; repeat split; reflexivity].
  intros param e. unfold geo_new, geo_from_pieces.
  destruct (get_coor (set_pieces geo_default (tokenize param))) as [g1|e'] eqn:E1;
    cbn [rbind].
  - intro H. right. exists g1. cbn [pieces init_min_max] in H |- *.
    destruct (pieces g1) as [|s rest] eqn:P; [discriminate|].
    destruct (string_dec s "to") as [->|Hs].
    + exists rest. split; [reflexivity|]. split; [reflexivity|].
      cbv beta iota in H.
      destruct (get_coor (set_pieces (init_min_max g1) rest)) as [g2|e2] eqn:E2;
        cbn [rbind] in H; [discriminate|].
      injection H as <-. apply get_coor_err in E2. exact E2.
    + exfalso. revert H.
      repeat match goal with |- context [match ?x with _ => _ end] => is_var x; destruct x end;
        try discriminate; congruence.
  - intro H. injection H as <-. left. apply get_coor_err in E1. exact E1.
Qed.

Lemma geo_new_errors_witness :
  geo_new "91 N 180 E" = Err OutOfRange.
Proof.
  apply (proj1 (proj2 (proj2 geo_new_errors))).
  right; right. vm_compute.
  eexists; eexists; split; [reflexivity|]. split; [|reflexivity].
  intros (H & _). destruct H as [_ H]. vm_compute in H. apply H. reflexivity.
Defined.

Lemma is_coor_zero_l (ew : string) : is_coor "0" ew = false.
Proof. reflexivity. Qed.

Lemma is_coor_zero_r (ns : string) : is_coor ns "0" = false.
Proof. unfold is_coor. cbn. destruct (_ || _); reflexivity. Qed.

(** Replacing an unparsable number token of the matched directional
    layout by ["0"] does not change what [parse_coordinate_format] reads. *)
Lemma parse_coordinate_format_zero (ps : list string) (i : nat) (tok : string) :
  ps !! i = Some tok -> directional_number_position ps i = true -> parse_f64 tok = None ->
  parse_coordinate_format (<[i := "0"]> ps) = parse_coordinate_format ps.
Proof.
  intros L D P.
  assert (Z : parse_piece tok = parse_piece "0")
    by (unfold parse_piece, parse_or_zero; rewrite P; reflexivity).
  unfold directional_number_position in D.
  unfold parse_coordinate_format, layout_deg, layout_deg_min, layout_deg_min_sec.
  destruct ps as [|a0 [|a1 [|a2 [|a3 [|a4 [|a5 [|a6 [|a7 r]]]]]]]];
  destruct i as [|[|[|[|[|[|[|[|i]]]]]]]];
  cbn in L, D |- *; try discriminate; try (injection L as ->);
  rewrite ?is_coor_zero_l, ?is_coor_zero_r in *;
  repeat match goal with
  | H : context [is_coor ?x ?y] |- _ =>
      let E := fresh in destruct (is_coor x y) eqn:E; rewrite ?E in *; clear E
  | H : context [find_char ";" ?x] |- _ =>
      let E := fresh in destruct (find_char ";" x) eqn:E; rewrite ?E in *; clear E
  end;
  cbn in *; try discriminate; rewrite ?Z; reflexivity.
Qed.

(** C10: in the directional layouts, a degree, minute or second token
    that does not parse as a number reads as 0: [GeoParam::new] gives the
    same result as with the token replaced by ["0"], so "abc N def W"
    succeeds with latitude and longitude 0. *)
Theorem geo_new_unparsable_is_zero :
  (forall (param : string) (i : nat) (tok : string),
     tokenize param !! i = Some tok ->
     directional_number_position (tokenize param) i = true ->
     parse_f64 tok = None ->
     geo_new param = geo_from_pieces (<[i := "0"]> (tokenize param))) /\
  (exists g, geo_new "abc N def W" = Ok g /\ latdeg g == 0 /\ londeg g == 0).
Proof.
  split; [|vm_compute; eexists; split; [reflexivity | split; reflexivity]].
  intros param i tok L D P.
  pose proof (parse_coordinate_format_zero _ _ _ L D P) as E.
  unfold geo_new, geo_from_pieces.
  assert (G : get_coor (set_pieces geo_default (<[i := "0"]> (tokenize param))) =
              get_coor (set_pieces geo_default (tokenize param))).
  { unfold get_coor. cbn [pieces set_pieces geo_default latdeg_min latdeg_max
                          londeg_min londeg_max].
    destruct (tokenize param) as [|a l] eqn:T; [discriminate|].
    destruct (<[i := "0"]> (a :: l)) as [|b l'] eqn:I.
    - apply (f_equal List.length) in I. rewrite length_insert in I. discriminate.
    - rewrite E. reflexivity. }
  rewrite G. reflexivity.
Qed.

Lemma geo_new_unparsable_is_zero_witness :
  geo_new "abc N def W" = geo_from_pieces ["0"; "N"; "def"; "W"].
Proof.
  exact (proj1 geo_new_unparsable_is_zero "abc N def W" 0%nat "abc"
           eq_refl ltac:(vm_compute; reflexivity) ltac:(vm_compute; reflexivity)).
Defined.

Lemma get_attr_loop_app (l1 l2 : list string) (m : gmap string string) :
  get_attr_loop (l1 ++ l2) m = get_attr_loop l2 (get_attr_loop l1 m).
Proof. revert m. induction l1 as [|s l1 IH]; intro m; cbn; auto. Qed.

Lemma get_attr_loop_cons (s : string) (l : list string) (m : gmap string string) :
  get_attr_loop (rev (s :: l)) m = attr_step (get_attr_loop (rev l) m) s.
Proof. cbn. rewrite get_attr_loop_app. reflexivity. Qed.

(** A token is either a [key:value] token, which sets its key (and maybe
    an [arg:] key), or a bare token, which may only set ["scale"]. *)
Lemma attr_step_cases (m : gmap string string) (s : string) :
  (exists a v, kv_of s = Some (a, v) /\ exists m', attr_step m s = <[a := v]> m' /\
     forall k, find_char ":" k = None -> m' !! k = m !! k) \/
  (kv_of s = None /\
   attr_step m s =
     match parse_i32 s with
     | Some num =>
         if (0 <? num)%Z && negb (bool_decide (is_Some (m !! "scale")))
         then <["scale" := z_to_string num]> m else m
     | None => m
     end).
Proof.
  unfold attr_step, kv_of.
  destruct (find_char ":" s) as [i|]; [destruct (1 <=? i)%nat|]; [left | right | right];
    [|split; reflexivity | split; reflexivity].
  do 2 eexists. split; [reflexivity|].
  destruct (find_char "(" (slice_from (S i) s)) as [j|];
  destruct (find_char ")" (slice_from (S i) s)) as [k|];
  try destruct (j <? k)%nat;
  eexists; (split; [reflexivity|]); intros k' K; try reflexivity.
  rewrite lookup_insert_ne; [reflexivity|].
  intro Heq. rewrite <- Heq in K. discriminate K.
Qed.

Lemma get_attr_loop_key (l : list string) (k : string) :
  find_char ":" k = None -> k <> "scale" ->
  get_attr_loop (rev l) ∅ !! k = first_value k l.
Proof.
  intros K S. induction l as [|s l IH]; [reflexivity|].
  rewrite get_attr_loop_cons.
  destruct (attr_step_cases (get_attr_loop (rev l) ∅) s)
    as [(a & v & KV & m' & -> & M) | (KV & ->)]; cbn [first_value]; rewrite KV.
  - destruct (String.eqb_spec a k) as [->|N].
    + rewrite lookup_insert_eq. reflexivity.
    + rewrite lookup_insert_ne by exact N. rewrite M by exact K. exact IH.
  - destruct (parse_i32 s) as [num|]; [|exact IH].
    destruct (_ && _); [|exact IH].
    rewrite lookup_insert_ne by congruence. exact IH.
Qed.

Lemma get_attr_loop_scale (l : list string) :
  get_attr_loop (rev l) ∅ !! "scale" =
    match first_value "scale" l with Some v => Some v | None => last_bare_scale l end.
Proof.
  induction l as [|s l IH]; [reflexivity|].
  rewrite get_attr_loop_cons.
  destruct (attr_step_cases (get_attr_loop (rev l) ∅) s)
    as [(a & v & KV & m' & -> & M) | (KV & ->)]; cbn [first_value last_bare_scale]; rewrite KV.
  - destruct (String.eqb_spec a "scale") as [->|N].
    + rewrite lookup_insert_eq. reflexivity.
    + rewrite lookup_insert_ne by exact N. rewrite M by reflexivity. rewrite IH.
      destruct (first_value "scale" l); [reflexivity|].
      destruct (last_bare_scale l); reflexivity.
  - destruct (get_attr_loop (rev l) ∅ !! "scale") as [x|] eqn:E.
    + rewrite (bool_decide_eq_true_2 (is_Some (Some x)) ltac:(eauto)). cbn [negb].
      destruct (first_value "scale" l); [destruct (parse_i32 s) as [num|];
        [rewrite andb_false_r|]; rewrite E; exact IH|].
      rewrite <- IH. destruct (parse_i32 s) as [num|]; [rewrite andb_false_r|]; exact E.
    + destruct (first_value "scale" l); [discriminate|]. rewrite <- IH.
      destruct (parse_i32 s) as [num|]; [|exact E].
      destruct (0 <? num)%Z; cbn; [rewrite lookup_insert_eq; reflexivity | exact E].
Qed.

(** C5 (as worded): of two [type:] tokens, the map keeps the value of the
    first one in the source (the last one drained), not of the last. *)
Lemma get_attr_first_in_source :
  exists g, geo_new "40_N_74_W_type:city_type:river" = Ok g /\
    fst (get_attr g) !! "type" = Some "city" /\
    fst (get_attr g) !! "type" <> Some "river".
Proof.
  exists (mkGeo (144000 # 3600) (-266400 # 3600) (144000 # 3600) (-266400 # 3600)
                (144000 # 3600) (-266400 # 3600) ["type:city"; "type:river"]
                [LNum (F 40); LDir "N"; LNum (F 74); LDir "W"]).
  split; [vm_compute; reflexivity|].
  split; [vm_compute; reflexivity|]. vm_compute. discriminate.
Qed.

(** C5: after [get_attr], a [key:value] name (other than [scale]) has the
    value of its first (leftmost) occurrence in the source, since every
    drained [key:value] token overwrites the entry; [scale] is the value
    of the first [scale:] token if there is one, else the last bare
    positive integer token; and the token list is drained. *)
Theorem get_attr_values (g : GeoParam) :
  (forall k, find_char ":" k = None -> k <> "scale" ->
     fst (get_attr g) !! k = first_value k (pieces g)) /\
  fst (get_attr g) !! "scale" =
    match first_value "scale" (pieces g) with
    | Some v => Some v
    | None => last_bare_scale (pieces g)
    end /\
  pieces (snd (get_attr g)) = [].
Proof.
  unfold get_attr; cbn [fst snd]. split; [|split].
  - intros k K S. apply get_attr_loop_key; assumption.
  - apply get_attr_loop_scale.
  - reflexivity.
Qed.

Lemma get_attr_values_witness :
  fst (get_attr (set_pieces geo_default ["type:city"; "type:river"])) !! "type" =
    Some "city".
Proof.
  exact (proj1 (get_attr_values (set_pieces geo_default ["type:city"; "type:river"])) "type"
           eq_refl ltac:(discriminate)).
Defined.

Lemma nth_error_hd_skipn (r : list string) (n : nat) :
  nth_error r n = hd_error (skipn n r).
Proof. revert r. induction n as [|n IH]; intros [|x r]; cbn; auto. Qed.

Lemma skipn_S_tl (r : list string) (n : nat) : skipn (S n) r = tl (skipn n r).
Proof. revert r. induction n as [|n IH]; intros [|x r]; cbn; auto. Qed.

Lemma replace_loop_from (s r : list string) (n : nat) (t : string) :
  fold_left (fun ret '(i, search_str) =>
               match nth_error r i with
               | Some replacement => str_replace ret search_str replacement
               | None => ret
               end)
            (combine (seq n (List.length s)) s) t =
  sequential_pass (combine s (skipn n r)) t.
Proof.
  revert n t. induction s as [|x s IH]; intros n t; [reflexivity|].
  cbn [List.length seq combine fold_left]. rewrite IH, skipn_S_tl, nth_error_hd_skipn.
  destruct (skipn n r) as [|v r']; cbn; [destruct s; reflexivity | reflexivity].
Qed.

(** The two loops of [replace_in_page] are sequential passes over the
    (placeholder, value) pairs. *)
Lemma replace_loop_sequential (t : string) (s r : list string) :
  replace_loop t s r = sequential_pass (combine s r) t.
Proof. unfold replace_loop, enumerate. apply (replace_loop_from s r 0). Qed.

Lemma str_replace_go_absent (pat rep t : string) :
  occurs pat t = false -> str_replace_go pat rep t 0 = t.
Proof.
  induction t as [|c t IH]; [reflexivity|].
  cbn [occurs str_replace_go]. intro H. apply orb_false_iff in H as [H1 H2].
  rewrite H1, IH by exact H2. reflexivity.
Qed.

Lemma str_replace_absent (t pat rep : string) :
  pat <> "" -> occurs pat t = false -> str_replace t pat rep = t.
Proof.
  intros N H. unfold str_replace. destruct pat; [congruence|].
  apply str_replace_go_absent. exact H.
Qed.

Lemma sequential_pass_absent (pairs : list (string * string)) (t : string) :
  (forall k v, In (k, v) pairs -> k <> "" /\ occurs k t = false) ->
  sequential_pass pairs t = t.
Proof.
  unfold sequential_pass. induction pairs as [|[k v] pairs IH]; intro H; [reflexivity|].
  cbn [fold_left]. destruct (H k v (or_introl eq_refl)) as [N O].
  rewrite str_replace_absent by assumption.
  apply IH. intros k' v' I. apply (H k' v'). right. exact I.
Qed.

Lemma str_replace_go_nonempty (pat rep t : string) (n : nat) :
  rep <> "" -> t <> "" -> n = 0%nat -> str_replace_go pat rep t n <> "".
Proof.
  intros R T ->. destruct t as [|c t]; [congruence|].
  cbn [str_replace_go]. destruct (String.prefix pat (String c t)).
  - destruct rep; [congruence|]. discriminate.
  - discriminate.
Qed.

Lemma quote_html_nonempty (k : string) : k <> "" -> quote_html k <> "".
Proof.
  intro N. unfold quote_html, str_replace.
  apply str_replace_go_nonempty; [discriminate | | reflexivity].
  apply str_replace_go_nonempty; [discriminate | exact N | reflexivity].
Qed.

Lemma in_combine_map_quote (s r : list string) (k v : string) :
  In (k, v) (combine (map quote_html s) r) -> exists k0, k = quote_html k0 /\ In (k0, v) (combine s r).
Proof.
  revert r. induction s as [|x s IH]; intros [|y r]; cbn; try tauto.
  intros [E | I].
  - injection E as <- <-. exists x. auto.
  - destruct (IH r I) as (k0 & -> & I'). exists k0. auto.
Qed.

(** C4 (as worded): the values are substituted key after key, and a
    later placeholder is also replaced inside the value of an earlier one:
    with ["{type}" -> "{region}"] and ["{region}" -> "US"] the text
    ["{type}"] becomes ["US"], where a single scan gives ["{region}"]. *)
Lemma replace_in_page_rescans :
  replace_in_page "{type}" ["{type}"; "{region}"] ["{region}"; "US"] = "US" /\
  substitute_spec "{type}" ["{type}"; "{region}"] ["{region}"; "US"] = "{region}".
Proof. split; vm_compute; reflexivity. Qed.

(** C4: [replace_in_page] is the sequential pass over the (escaped
    placeholder, value) pairs followed by the sequential pass over the
    (raw placeholder, value) pairs, where each pair replaces all of its
    occurrences in the text produced so far; a placeholder with no value
    (past the end of the values) is not replaced; a text where no
    placeholder with a value occurs, escaped or raw, is left unchanged. *)
Theorem replace_in_page_passes :
  (forall (thetext : string) (search replace : list string),
     replace_in_page thetext search replace =
     sequential_pass (combine search replace)
       (sequential_pass (combine (map quote_html search) replace) thetext)) /\
  (forall (thetext : string) (search replace : list string),
     (forall k v, In (k, v) (combine search replace) ->
        k <> "" /\ occurs (quote_html k) thetext = false /\ occurs k thetext = false) ->
     replace_in_page thetext search replace = thetext) /\
  replace_in_page "{a} &#123;b&#125; {c}" ["{a}"; "{b}"; "{c}"] ["1"; "2"] = "1 2 {c}".
Proof.
  assert (E : forall thetext search replace,
     replace_in_page thetext search replace =
     sequential_pass (combine search replace)
       (sequential_pass (combine (map quote_html search) replace) thetext)).
  { intros. unfold replace_in_page. rewrite !replace_loop_sequential. reflexivity. }
  split; [exact E|]. split; [|vm_compute; reflexivity].
  intros thetext search replace H. rewrite E.
  rewrite (sequential_pass_absent (combine (map quote_html search) replace)).
  - apply sequential_pass_absent. intros k v I. destruct (H k v I) as (N & _ & O). auto.
  - intros k v I. apply in_combine_map_quote in I as (k0 & -> & I).
    destruct (H k0 v I) as (N & O & _). split; [apply quote_html_nonempty; exact N | exact O].
Qed.

Lemma replace_in_page_passes_witness :
  replace_in_page "no placeholder" ["{a}"] ["1"] = "no placeholder".
Proof.
  apply (proj1 (proj2 replace_in_page_passes)).
  intros k v [E | []]. injection E as <- <-.
  split; [discriminate | split; vm_compute; reflexivity].
Defined.

(** C9: [scale_dim] turns [km] into the text ["000"] before parsing, which
    multiplies by 1000 only a value written without a decimal point:
    [dim:3km] gives scale 30000 as 3000 / 0.1, but [dim:1.5km] reads as
    ["1.5000"], i.e. 1.5 m, and gives scale 15, not 1500 / 0.1 = 15000. *)
Theorem scale_dim_km_decimal :
  (exists m, attrs_after_dim "40_N_74_W_dim:3km" = Ok m /\ m !! "scale" = Some "30000") /\
  (exists m, attrs_after_dim "40_N_74_W_dim:1.5km" = Ok m /\ m !! "scale" = Some "15") /\
  f64_to_string (fdiv_pos (F (1.5 * 1000)) 0.1) = "15000".
Proof.
  split; [|split]; [vm_compute; eexists; split; reflexivity ..| vm_compute; reflexivity].
Qed.

(* ------------------------------------------------------------------ *)
(** ** Further properties of the code *)

Lemma list_ascii_of_string_app' (s1 s2 : string) :
  list_ascii_of_string (s1 ++ s2) = (list_ascii_of_string s1 ++ list_ascii_of_string s2)%list.
Proof. induction s1 as [|c s1 IH]; simpl; [reflexivity | f_equal; exact IH]. Qed.

Lemma digit_char (d : Z) : (0 <= d < 10)%Z ->
  is_digit (ascii_of_nat (48 + Z.to_nat d)) = true /\
  digit_val (ascii_of_nat (48 + Z.to_nat d)) = d.
Proof.
  intro H. assert (d = 0 \/ d = 1 \/ d = 2 \/ d = 3 \/ d = 4 \/ d = 5 \/ d = 6 \/ d = 7 \/
                   d = 8 \/ d = 9)%Z as E by lia.
  repeat destruct E as [E|E]; subst; split; reflexivity.
Qed.

Lemma digits_of_pos_spec (f : nat) (n : Z) (acc : string) :
  (0 <= n)%Z -> (n < 10 ^ Z.of_nat (S f))%Z ->
  exists L, list_ascii_of_string (digits_of_pos (S f) n acc) = (L ++ list_ascii_of_string acc)%list /\
    L <> [] /\ Forall (fun c => is_digit c = true) L /\ digits_value L 0 = n.
Proof.
  revert n acc. induction f as [|f IH]; intros n acc N B.
  - cbn [digits_of_pos].
    replace (10 ^ Z.of_nat 1)%Z with 10%Z in B by reflexivity.
    destruct (Z.ltb_spec n 10); [|lia].
    destruct (digit_char (n mod 10)) as [D V]; [apply Z.mod_pos_bound; lia|].
    exists [ascii_of_nat (48 + Z.to_nat (n mod 10))]. rewrite list_ascii_of_string_app'.
    split; [reflexivity|]. split; [discriminate|]. split; [constructor; auto|].
    unfold digits_value; cbn [fold_left]. rewrite V. rewrite Z.mod_small; lia.
  - cbn [digits_of_pos].
    destruct (digit_char (n mod 10)) as [D V]; [apply Z.mod_pos_bound; lia|].
    destruct (Z.ltb_spec n 10).
    + exists [ascii_of_nat (48 + Z.to_nat (n mod 10))]. rewrite list_ascii_of_string_app'.
      split; [reflexivity|]. split; [discriminate|]. split; [constructor; auto|].
      unfold digits_value; cbn [fold_left]. rewrite V. rewrite Z.mod_small; lia.
    + destruct (IH (n / 10)%Z (String (ascii_of_nat (48 + Z.to_nat (n mod 10))) EmptyString ++ acc))
        as (L & E & NE & FD & VL).
      * apply Z.div_pos; lia.
      * rewrite Nat2Z.inj_succ, Z.pow_succ_r in B by lia.
        rewrite Nat2Z.inj_succ. apply Z.div_lt_upper_bound; lia.
      * cbn [digits_of_pos] in E. rewrite E.
        exists (L ++ [ascii_of_nat (48 + Z.to_nat (n mod 10))])%list.
        rewrite list_ascii_of_string_app'. rewrite <- app_assoc. split; [reflexivity|].
        split; [destruct L; [congruence | discriminate]|].
        split; [apply Forall_app; split; auto|].
        unfold digits_value in *. rewrite fold_left_app, VL. cbn [fold_left]. rewrite V.
        pose proof (Z.div_mod n 10). lia.
Qed.

Lemma take_digits_app (L r : list ascii) (v : Z) (k : nat) :
  Forall (fun c => is_digit c = true) L ->
  take_digits (L ++ r)%list v k = take_digits r (digits_value L v) (k + List.length L).
Proof.
  revert v k. induction L as [|c L IH]; intros v k F; cbn.
  - now rewrite Nat.add_0_r.
  - inversion F as [|? ? D F']; subst. rewrite D, IH by exact F'.
    now rewrite Nat.add_succ_r.
Qed.

Lemma pos_lt_pow10 (p : positive) : (Zpos p < 10 ^ Z.of_nat (S (Pos.size_nat p)))%Z.
Proof.
  assert (H : (Zpos p < 2 ^ Z.of_nat (Pos.size_nat p))%Z).
  { induction p as [p IH|p IH|]; cbn [Pos.size_nat]; rewrite ?Nat2Z.inj_succ, ?Z.pow_succ_r by lia;
      [rewrite Pos2Z.inj_xI | rewrite Pos2Z.inj_xO | ]; cbn; lia. }
  assert (H2 : (2 ^ Z.of_nat (Pos.size_nat p) <= 10 ^ Z.of_nat (Pos.size_nat p))%Z)
    by (apply Z.pow_le_mono_l; lia).
  rewrite Nat2Z.inj_succ, Z.pow_succ_r by lia.
  pose proof (Z.pow_pos_nonneg 10 (Z.of_nat (Pos.size_nat p))). lia.
Qed.

Lemma z_to_string_nonneg (n : Z) : (0 <= n)%Z ->
  exists L, list_ascii_of_string (z_to_string n) = L /\
    L <> [] /\ Forall (fun c => is_digit c = true) L /\ digits_value L 0 = n.
Proof.
  intro N. unfold z_to_string. destruct (Z.ltb_spec n 0); [lia|].
  destruct (digits_of_pos_spec (Pos.size_nat (Z.to_pos n)) n EmptyString) as (L & E & R);
    [exact N| |].
  - destruct n as [|p|p]; [reflexivity | apply pos_lt_pow10 | lia].
  - exists L. rewrite E. cbn. rewrite app_nil_r. split; [reflexivity | exact R].
Qed.

Lemma digits_value_nonneg (L : list ascii) (v : Z) : (0 <= v)%Z -> (0 <= digits_value L v)%Z.
Proof.
  revert v. induction L as [|c L IH]; intros v V; cbn; [exact V|].
  apply IH. unfold digit_val. lia.
Qed.

Lemma take_digits_all (L : list ascii) :
  Forall (fun c => is_digit c = true) L ->
  take_digits L 0 0 = (digits_value L 0, List.length L, []).
Proof.
  intro F. pose proof (take_digits_app L [] 0 0 F) as T. rewrite app_nil_r in T.
  rewrite T. reflexivity.
Qed.

Lemma parse_i32_digits (s : string) (L : list ascii) :
  list_ascii_of_string s = L -> L <> [] -> Forall (fun c => is_digit c = true) L ->
  (digits_value L 0 <= 2147483647)%Z -> parse_i32 s = Some (digits_value L 0).
Proof.
  intros E NE F B. unfold parse_i32. rewrite E.
  pose proof (take_digits_all L F) as T.
  pose proof (digits_value_nonneg L 0 ltac:(lia)) as P.
  destruct L as [|c L']; [congruence|].
  inversion F as [|? ? D F']; subst.
  destruct c as [[] [] [] [] [] [] [] []]; cbn in D; try discriminate D;
    cbn -[take_digits digits_value]; rewrite T; cbn -[digits_value];
    match goal with |- context [digits_value ?l 0] =>
      destruct (Z.leb_spec (-2147483648) (digits_value l 0)); try lia;
      destruct (Z.leb_spec (digits_value l 0) 2147483647); try lia end; reflexivity.
Qed.

Lemma parse_i32_z_to_string (n : Z) :
  (-2147483648 <= n <= 2147483647)%Z -> parse_i32 (z_to_string n) = Some n.
Proof.
  intro R. destruct (Z.ltb_spec n 0) as [N|N].
  - destruct (z_to_string_nonneg (- n) ltac:(lia)) as (L & E & NE & F & V).
    assert (Z : z_to_string n = "-" ++ z_to_string (- n)).
    { unfold z_to_string at 1. destruct (Z.ltb_spec n 0); [|lia].
      unfold z_to_string. destruct (Z.ltb_spec (- n) 0); [lia|]. reflexivity. }
    rewrite Z. unfold parse_i32. cbn [list_ascii_of_string append]. 
    change (list_ascii_of_string ("-" ++ z_to_string (- n)))
      with ("-"%char :: list_ascii_of_string (z_to_string (- n))).
    rewrite E. cbv iota beta. rewrite (take_digits_all L F), V.
    destruct L as [|c L']; [congruence|]. cbn [List.length].
    destruct (Z.leb_spec (-2147483648) (- - n)); [|lia].
    destruct (Z.leb_spec (- - n) 2147483647); [|lia]. cbn. f_equal. lia.
  - destruct (z_to_string_nonneg n N) as (L & E & NE & F & V).
    rewrite (parse_i32_digits _ L E NE F); [now rewrite V | lia].
Qed.

Lemma parse_i32_range (s : string) (n : Z) :
  parse_i32 s = Some n -> (-2147483648 <= n <= 2147483647)%Z.
Proof.
  unfold parse_i32.
  destruct (match list_ascii_of_string s with
            | "-"%char :: r => (true, r) | "+"%char :: r => (false, r)
            | _ => (false, list_ascii_of_string s) end) as [neg body].
  destruct (take_digits body 0 0) as [[v [|k]] [|c r]]; try discriminate.
  destruct (_ && _)%bool eqn:E; [|discriminate].
  intro H. injection H as <-. apply andb_true_iff in E as [E1 E2].
  apply Z.leb_le in E1, E2. lia.
Qed.


Lemma take_digits_value (l : list ascii) (v : Z) (k : nat) (v' : Z) (k' : nat) :
  take_digits l v k = (v', k', []) -> v' = digits_value l v /\ k' = (k + List.length l)%nat.
Proof.
  revert v k. induction l as [|c l IH]; intros v k; cbn.
  - intro H. injection H as <- <-. split; [reflexivity | lia].
  - destruct (is_digit c); [|discriminate].
    intro H. destruct (IH _ _ H) as [-> ->]. split; [reflexivity | lia].
Qed.



(** ** Multimap scale *)

Lemma mmscale_find (x : f64) : MiscMapSourceValues.get_mmscale x = get_mmscale x.
Proof.
  unfold MiscMapSourceValues.get_mmscale, get_mmscale, MiscMapSourceValues.MMSCALE_THRESHOLDS.
  cbn [List.find fst].
  repeat (destruct (fge x _); [reflexivity|]). reflexivity.
Qed.

Lemma table_find_le (l : list (Q * Z)) (dflt v : Z) (x : f64) :
  forallb (fun e => (snd e <=? v)%Z) l = true -> (dflt <= v)%Z ->
  (match List.find (fun e => fge x (fst e)) l with Some (_, s) => s | None => dflt end <= v)%Z.
Proof.
  induction l as [|[c w] l IH]; cbn [List.find forallb fst snd]; intros H D; [exact D|].
  apply andb_true_iff in H as [H1 H2]. apply Z.leb_le in H1.
  destruct (fge x c); [exact H1 | exact (IH H2 D)].
Qed.

Lemma table_find_mono (l : list (Q * Z)) (dflt : Z) (q1 q2 : Q) :
  chain_ok l dflt = true -> q1 <= q2 ->
  (match List.find (fun e => fge (F q1) (fst e)) l with Some (_, s) => s | None => dflt end <=
   match List.find (fun e => fge (F q2) (fst e)) l with Some (_, s) => s | None => dflt end)%Z.
Proof.
  intros Hc Q12. revert Hc.
  induction l as [|[c v] l IH]; cbn [List.find chain_ok fst fge]; intros H; [lia|].
  apply andb_true_iff in H as [H H3]. apply andb_true_iff in H as [H1 H2].
  apply Z.leb_le in H2.
  destruct (Qle_bool c q1) eqn:C1.
  - apply Qle_bool_iff in C1.
    assert (C2 : Qle_bool c q2 = true) by (apply Qle_bool_iff; lra).
    rewrite C2. lia.
  - destruct (Qle_bool c q2); [|exact (IH H3)].
    exact (table_find_le l dflt v (F q1) H1 H2).
Qed.

(** ** Default scale *)

Lemma z_to_string_i32 (n : Z) :
  (-2147483648 <= n <= 2147483647)%Z -> parse_i32 (z_to_string n) = Some n.
Proof. exact (parse_i32_z_to_string n). Qed.

Lemma table_get_default_scale (t : string) (v : Z) :
  table_get default_scale_table t = Some v -> (10000 <= v <= 10000000)%Z.
Proof.
  unfold table_get, default_scale_table. cbn [List.find fst].
  repeat match goal with |- context [if String.eqb ?a ?b then _ else _] =>
    destruct (String.eqb a b); [cbn; intro H; injection H as <-; lia|] end.
  discriminate.
Qed.

Lemma attr_i32_or_zero_cases (attr : gmap string string) (k : string) :
  attr_i32_or_zero attr k = 0%Z \/
  exists s, attr !! k = Some s /\ parse_i32 s = Some (attr_i32_or_zero attr k).
Proof.
  unfold attr_i32_or_zero. destruct (attr !! k) as [s|]; [|left; reflexivity].
  destruct (parse_i32 s) as [n|] eqn:P; [right; exists s; split; [reflexivity | exact P] | left; reflexivity].
Qed.

Lemma default_scale_value (p : GeoParam) (attr : gmap string string) :
  exists s n, default_scale p attr !! "scale" = Some s /\ parse_i32 s = Some n /\ n <> 0%Z /\
    ((n < 0)%Z -> exists d, attr !! "default" = Some d /\ parse_i32 d = Some n).
Proof.
  unfold default_scale.
  destruct (attr_i32_or_zero attr "scale" <=? 0)%Z eqn:S.
  - set (d0 := attr_i32_or_zero attr "default").
    assert (R0 : d0 = 0%Z \/ exists d, attr !! "default" = Some d /\ parse_i32 d = Some d0)
      by apply attr_i32_or_zero_cases.
    assert (B0 : d0 = 0%Z \/ (-2147483648 <= d0 <= 2147483647)%Z).
    { destruct R0 as [R0|(d & _ & P)]; [left; exact R0 | right; exact (parse_i32_range _ _ P)]. }
    set (d1 := if (d0 =? 0)%Z then _ else d0).
    assert (R1 : (d0 = 0%Z /\ (d1 = 0%Z \/ (10000 <= d1 <= 10000000)%Z)) \/ (d0 <> 0%Z /\ d1 = d0)).
    { subst d1. destruct (Z.eqb_spec d0 0) as [E|E]; [left; split; [exact E|] | right; auto].
      destruct (attr !! "type") as [t|]; [|left; exact E].
      destruct (table_get default_scale_table t) as [v|] eqn:T; [right; exact (table_get_default_scale _ _ T) | left; exact E]. }
    set (d2 := if (d1 =? 0)%Z then _ else d1).
    assert (R2 : (10000 <= d2 <= 10000000)%Z \/ (d2 = d0 /\ d0 <> 0%Z)).
    { subst d2. destruct (Z.eqb_spec d1 0) as [E|E].
      - left. destruct (_ =? 8)%nat; [lia|]. destruct (_ =? 6)%nat; lia.
      - destruct R1 as [[_ [R1|R1]]|[R1 R1']]; [lia | left; exact R1 | right; split; [exact R1' | exact R1]]. }
    exists (z_to_string d2), d2. rewrite lookup_insert_eq.
    assert (B2 : (-2147483648 <= d2 <= 2147483647)%Z).
    { destruct R2 as [R2|[-> N]]; [lia|]. destruct B0; [contradiction | assumption]. }
    split; [reflexivity|]. split; [exact (z_to_string_i32 _ B2)|].
    split; [destruct R2 as [R2|[-> N]]; lia|].
    intro Neg. destruct R2 as [R2|[E N]]; [lia|].
    destruct R0 as [R0|R0]; [contradiction|]. rewrite E. exact R0.
  - apply Z.leb_gt in S. unfold attr_i32_or_zero in S.
    destruct (attr !! "scale") as [s|]; [|lia].
    destruct (parse_i32 s) as [n|] eqn:P; [|lia].
    exists s, n. split; [reflexivity|]. split; [exact P|]. split; lia.
Qed.

Lemma default_scale_other (p : GeoParam) (attr : gmap string string) (k : string) :
  k <> "scale" -> default_scale p attr !! k = attr !! k.
Proof.
  intro N. unfold default_scale. destruct (_ <=? 0)%Z; [|reflexivity].
  rewrite lookup_insert_ne by congruence. reflexivity.
Qed.

(** ** Zone number and central meridian *)

(** ** OSGB36 grid references *)

Lemma trunc_Q_inject (z : Z) : trunc_Q (inject_Z z) = z.
Proof.
  unfold trunc_Q. destruct (Qle_bool 0 (inject_Z z)) eqn:E.
  - apply Qfloor_Z.
  - change (- inject_Z z) with (inject_Z (- z)). rewrite Qfloor_Z. lia.
Qed.

Lemma floor_as_i32_grid (x : Q) (k : Z) :
  (0 <= k < 2147483647)%Z ->
  ((0 <=? floor_as_i32 x) && (floor_as_i32 x <=? k))%Z = true <-> 0 <= x < inject_Z (k + 1).
Proof.
  intro K. unfold floor_as_i32, as_i32. rewrite trunc_Q_inject.
  rewrite andb_true_iff, !Z.leb_le.
  destruct (floor_bounds x) as [B1 B2].
  split.
  - intros [H1 H2]. assert (R : (0 <= Qfloor x <= k)%Z) by lia.
    split.
    + apply (Qle_trans _ (inject_Z (Qfloor x))); [|exact B1].
      change 0 with (inject_Z 0). rewrite <- Zle_Qle. lia.
    + apply (Qlt_le_trans _ _ _ B2).
      replace (inject_Z (Qfloor x) + 1) with (inject_Z (Qfloor x + 1)) by (rewrite inject_Z_plus; reflexivity).
      rewrite <- Zle_Qle. lia.
  - intros [H1 H2].
    assert (F0 : (0 <= Qfloor x)%Z) by (apply floor_nonneg; exact H1).
    assert (F1 : (Qfloor x < k + 1)%Z) by (apply floor_lt_Z; exact H2).
    lia.
Qed.

Lemma length_append (s t : string) : String.length (s ++ t) = (String.length s + String.length t)%nat.
Proof. induction s as [|c s IH]; simpl; [reflexivity | f_equal; exact IH]. Qed.

Lemma length_list_ascii (s : string) : List.length (list_ascii_of_string s) = String.length s.
Proof. induction s as [|c s IH]; simpl; [reflexivity | f_equal; exact IH]. Qed.

Lemma substring_app_l (s t : string) : substring 0 (String.length s) (s ++ t) = s.
Proof.
  induction s as [|c s IH]; simpl; [destruct t; reflexivity | f_equal; exact IH].
Qed.

Lemma substring_app_r (s t : string) (k m : nat) :
  substring (String.length s + k) m (s ++ t) = substring k m t.
Proof. induction s as [|c s IH]; simpl; [reflexivity | exact IH]. Qed.

Lemma substring_all (t : string) : substring 0 (String.length t) t = t.
Proof. induction t as [|c t IH]; simpl; [reflexivity | f_equal; exact IH]. Qed.

Lemma zeros_length (j : nat) : String.length (zeros j) = j.
Proof. induction j as [|j IH]; simpl; [reflexivity | f_equal; exact IH]. Qed.

Lemma digits_of_pos_length (f : nat) (n : Z) (acc : string) (k : nat) :
  (0 <= n < 10 ^ Z.of_nat (S k))%Z ->
  (String.length (digits_of_pos f n acc) <= S k + String.length acc)%nat.
Proof.
  revert n acc k. induction f as [|f IH]; intros n acc k R; cbn [digits_of_pos]; [lia|].
  destruct (Z.ltb_spec n 10) as [L|L].
  - rewrite length_append. cbn. lia.
  - destruct k as [|k]; [cbn in R; lia|].
    assert (R' : (0 <= n / 10 < 10 ^ Z.of_nat (S k))%Z).
    { split; [apply Z.div_pos; lia|]. apply Z.div_lt_upper_bound; [lia|].
      replace (10 * 10 ^ Z.of_nat (S k))%Z with (10 ^ Z.of_nat (S (S k)))%Z; [lia|].
      rewrite !Nat2Z.inj_succ, (Z.pow_succ_r 10 (Z.succ _)) by lia. reflexivity. }
    specialize (IH (n / 10)%Z (String (ascii_of_nat (48 + Z.to_nat (n mod 10))) "" ++ acc) k R').
    rewrite length_append in IH. cbn [String.length] in IH. lia.
Qed.

Lemma z_to_string_length5 (m : Z) :
  (0 <= m < 100000)%Z -> (1 <= String.length (z_to_string m) <= 5)%nat.
Proof.
  intro R. split.
  - destruct (z_to_string_nonneg m (proj1 R)) as (L & E & NE & _).
    rewrite <- length_list_ascii, E. destruct L; [congruence | cbn; lia].
  - unfold z_to_string. destruct (Z.ltb_spec m 0); [lia|].
    pose proof (digits_of_pos_length (S (Pos.size_nat (Z.to_pos m))) m "" 4 ltac:(cbn; lia)) as Hl.
    cbn [String.length] in Hl. lia.
Qed.

Lemma zeros_digits (j : nat) :
  list_ascii_of_string (zeros j) = repeat "0"%char j.
Proof. induction j as [|j IH]; cbn; [reflexivity | rewrite IH; reflexivity]. Qed.

Lemma digits_value_zeros (j : nat) : digits_value (repeat "0"%char j) 0 = 0%Z.
Proof. induction j as [|j IH]; [reflexivity|]. exact IH. Qed.

Lemma pad5_spec (m : Z) :
  (0 <= m < 100000)%Z ->
  String.length (pad5 m) = 5%nat /\ parse_i32 (pad5 m) = Some m.
Proof.
  intro R. pose proof (z_to_string_length5 m R) as Ln.
  destruct (z_to_string_nonneg m (proj1 R)) as (L & E & NE & F & V).
  unfold pad5. destruct (Z.ltb_spec m 0); [lia|]. rewrite Z.abs_eq by lia.
  change (String.length "") with 0%nat. change ("" ++ ?x) with x. split.
  - rewrite length_append, zeros_length. lia.
  - set (Z0 := repeat "0"%char (5 - 0 - String.length (z_to_string m))).
    assert (DV : digits_value (Z0 ++ L)%list 0 = m).
    { unfold digits_value. rewrite fold_left_app. fold (digits_value Z0 0).
      subst Z0. rewrite digits_value_zeros. fold (digits_value L 0). exact V. }
    transitivity (Some (digits_value (Z0 ++ L)%list 0)); [|rewrite DV; reflexivity].
    apply parse_i32_digits.
    + rewrite list_ascii_of_string_app', zeros_digits, E. reflexivity.
    + destruct L; [congruence|]. intro Hn. apply app_eq_nil in Hn as [_ Hn]. discriminate.
    + apply Forall_app. split; [|exact F]. apply Forall_forall. intros c Hc.
      apply list_elem_of_In, repeat_spec in Hc. subst. reflexivity.
    + lia.
Qed.

Lemma floor_as_i32_small (x : Q) :
  (0 <= Qfloor x <= 2147483647)%Z -> floor_as_i32 x = Qfloor x.
Proof. intro R. unfold floor_as_i32, as_i32. rewrite trunc_Q_inject. lia. Qed.

Lemma osgb36_letters_check_ok : osgb36_letters_check = true.
Proof. vm_compute. reflexivity. Qed.

Lemma osgb36_square_letters_inj (a b a' b' : Z) :
  (0 <= a <= 6)%Z -> (0 <= b <= 12)%Z -> (0 <= a' <= 6)%Z -> (0 <= b' <= 12)%Z ->
  osgb36_square_letters a b = osgb36_square_letters a' b' -> a = a' /\ b = b'.
Proof.
  intros A B A' B' H. pose proof osgb36_letters_check_ok as C.
  unfold osgb36_letters_check in C.
  rewrite List.forallb_forall in C. specialize (C (Z.to_nat a) ltac:(apply in_seq; lia)).
  rewrite List.forallb_forall in C. specialize (C (Z.to_nat b) ltac:(apply in_seq; lia)).
  rewrite List.forallb_forall in C. specialize (C (Z.to_nat a') ltac:(apply in_seq; lia)).
  rewrite List.forallb_forall in C. specialize (C (Z.to_nat b') ltac:(apply in_seq; lia)).
  rewrite !Z2Nat.id in C by lia.
  rewrite <- H in C. destruct (osgb36_square_letters a b) as [c1 c2].
  rewrite !Ascii.eqb_refl in C. cbn in C.
  apply andb_true_iff in C as [C1 C2]. apply Nat.eqb_eq in C1, C2. lia.
Qed.

Lemma format_osgb36_reference_in (tm : TransverseMercator) :
  0 <= easting (tm_result tm) < 700000 -> 0 <= northing (tm_result tm) < 1300000 ->
  (0 <= Qfloor (easting (tm_result tm) / 100000) <= 6)%Z /\
  (0 <= Qfloor (northing (tm_result tm) / 100000) <= 12)%Z /\
  format_osgb36_reference tm =
    String (fst (osgb36_square_letters (Qfloor (easting (tm_result tm) / 100000))
                                       (Qfloor (northing (tm_result tm) / 100000))))
      (String (snd (osgb36_square_letters (Qfloor (easting (tm_result tm) / 100000))
                                          (Qfloor (northing (tm_result tm) / 100000))))
        (pad5 (Qfloor (easting (tm_result tm)) mod 100000)
         ++ pad5 (Qfloor (northing (tm_result tm)) mod 100000))).
Proof.
  intros He Hn. unfold format_osgb36_reference. cbv zeta.
  set (e := easting (tm_result tm)) in *. set (n := northing (tm_result tm)) in *.
  assert (Gx : ((0 <=? floor_as_i32 (e / 100000)) && (floor_as_i32 (e / 100000) <=? 6))%Z = true).
  { apply floor_as_i32_grid; [lia|]. change (inject_Z (6 + 1)) with (7 # 1). qinv_consts. lra. }
  assert (Gy : ((0 <=? floor_as_i32 (n / 100000)) && (floor_as_i32 (n / 100000) <=? 12))%Z = true).
  { apply floor_as_i32_grid; [lia|]. change (inject_Z (12 + 1)) with (13 # 1). qinv_consts. lra. }
  rewrite Gx, Gy. cbn [negb orb].
  assert (Fx : (0 <= Qfloor (e / 100000) <= 6)%Z).
  { split; [apply floor_nonneg; qinv_consts; lra|].
    apply Z.lt_succ_r, floor_lt_Z. change (inject_Z (Z.succ 6)) with (7 # 1). qinv_consts. lra. }
  assert (Fy : (0 <= Qfloor (n / 100000) <= 12)%Z).
  { split; [apply floor_nonneg; qinv_consts; lra|].
    apply Z.lt_succ_r, floor_lt_Z. change (inject_Z (Z.succ 12)) with (13 # 1). qinv_consts. lra. }
  rewrite !floor_as_i32_small by lia.
  rewrite (as_i32_floor e) by lra. rewrite (as_i32_floor n) by lra.
  pose proof (floor_nonneg e (proj1 He)). pose proof (floor_nonneg n (proj1 Hn)).
  rewrite (Z.rem_mod_nonneg (Qfloor e) 100000), (Z.rem_mod_nonneg (Qfloor n) 100000) by lia.
  split; [exact Fx|]. split; [exact Fy|]. reflexivity.
Qed.

Lemma floor_div_100000 (x : Q) : 0 <= x ->
  Qfloor (x / 100000) = (Qfloor x / 100000)%Z.
Proof.
  intro H. set (f := Qfloor x). set (k := (f / 100000)%Z).
  destruct (floor_bounds x) as [B1 B2]. fold f in B1, B2.
  pose proof (Z.mul_div_le f 100000 ltac:(lia)) as K1. fold k in K1.
  pose proof (Z.mod_pos_bound f 100000 ltac:(lia)) as K2.
  pose proof (Z.div_mod f 100000 ltac:(lia)) as K3. fold k in K3.
  assert (K4 : (f + 1 <= 100000 * (k + 1))%Z) by lia.
  apply Z.le_antisymm.
  - apply Z.lt_succ_r, floor_lt_Z.
    assert (Q4 : inject_Z (f + 1) <= inject_Z (100000 * (k + 1))) by (rewrite <- Zle_Qle; exact K4).
    rewrite inject_Z_plus in Q4. rewrite inject_Z_mult, inject_Z_plus in Q4.
    unfold Z.succ. rewrite inject_Z_plus.
    change (inject_Z 100000) with (100000 # 1) in Q4. change (inject_Z 1) with (1 # 1) in *.
    qinv_consts. lra.
  - apply Z_le_floor.
    assert (Q1 : inject_Z (100000 * k) <= inject_Z f) by (rewrite <- Zle_Qle; exact K1).
    rewrite inject_Z_mult in Q1. change (inject_Z 100000) with (100000 # 1) in Q1.
    qinv_consts. lra.
Qed.

Lemma osgb36_ref_parts (tm : TransverseMercator) :
  0 <= easting (tm_result tm) < 700000 -> 0 <= northing (tm_result tm) < 1300000 ->
  String.length (format_osgb36_reference tm) = 12%nat /\
  substring 2 5 (format_osgb36_reference tm) = pad5 (Qfloor (easting (tm_result tm)) mod 100000) /\
  substring 7 5 (format_osgb36_reference tm) = pad5 (Qfloor (northing (tm_result tm)) mod 100000).
Proof.
  intros He Hn. destruct (format_osgb36_reference_in tm He Hn) as (_ & _ & ->).
  pose proof (floor_nonneg _ (proj1 He)). pose proof (floor_nonneg _ (proj1 Hn)).
  destruct (pad5_spec (Qfloor (easting (tm_result tm)) mod 100000) ltac:(apply Z.mod_pos_bound; lia)) as [L1 _].
  destruct (pad5_spec (Qfloor (northing (tm_result tm)) mod 100000) ltac:(apply Z.mod_pos_bound; lia)) as [L2 _].
  set (p1 := pad5 _) in *. set (p2 := pad5 _) in *.
  split; [|split].
  - cbn [String.length]. rewrite length_append, L1, L2. reflexivity.
  - change (substring 2 5 (String ?a (String ?b ?s))) with (substring 0 5 s).
    rewrite <- L1. apply substring_app_l.
  - change (substring 7 5 (String ?a (String ?b ?s))) with (substring 5 5 s).
    replace 5%nat with (String.length p1 + 0)%nat at 1 by lia.
    rewrite substring_app_r, <- L2. apply substring_all.
Qed.

(** ** Degrees, minutes and seconds *)

Lemma make_minsec_deg (deg : Q) :
  ms_deg (make_minsec deg) = inject_Z (round_Q (deg * 1000000)) / 1000000.
Proof. unfold make_minsec. destruct (Qle_bool 0 deg); reflexivity. Qed.

(** ** Single-byte replacement and the region suffixes *)

Lemma prefix_empty (t : string) : String.prefix "" t = true.
Proof. destruct t; reflexivity. Qed.

Lemma str_replace_go_char (c : ascii) (rep t : string) (x : ascii) :
  In x (list_ascii_of_string (str_replace_go (String c EmptyString) rep t 0)) ->
  In x (list_ascii_of_string rep) \/ (In x (list_ascii_of_string t) /\ x <> c).
Proof.
  induction t as [|y t IH]; simpl; [tauto|].
  destruct (ascii_dec c y) as [<-|N]; simpl; rewrite ?prefix_empty.
  - rewrite list_ascii_of_string_app', in_app_iff.
    intros [H|H]; [now left|]. destruct (IH H) as [A|[A B]]; [now left|right; tauto].
  - intros [<-|H]; [right; split; [now left|congruence]|].
    destruct (IH H) as [A|[A B]]; [now left|right; tauto].
Qed.

Lemma str_replace_char (c : ascii) (rep t : string) (x : ascii) :
  In x (list_ascii_of_string (str_replace t (String c EmptyString) rep)) ->
  In x (list_ascii_of_string rep) \/ (In x (list_ascii_of_string t) /\ x <> c).
Proof. apply str_replace_go_char. Qed.

Lemma to_upper_ascii_empty (s : string) : to_upper_ascii s = "" <-> s = "".
Proof. destruct s; simpl; split; congruence. Qed.

Lemma substring_0_empty (n : nat) (s : string) :
  substring 0 n s = "" <-> n = 0%nat \/ s = "".
Proof.
  destruct n, s; simpl; split; intros H; try congruence; auto.
  destruct H; congruence.
Qed.

Lemma substring_empty (m n : nat) (s : string) :
  (m + n <= String.length s)%nat -> substring m n s = "" <-> n = 0%nat.
Proof.
  revert s. induction m as [|m IH]; intros s L.
  - rewrite substring_0_empty. destruct s; simpl in L; [lia|]. intuition congruence.
  - destruct s as [|c s]; simpl in L; [lia|]. simpl. apply IH. lia.
Qed.

(** ** Signs of the rounded degrees *)

Lemma round_Q_sign (q : Q) :
  (0 <= q -> (0 <= round_Q q)%Z) /\ (q < 0 -> (round_Q q <= 0)%Z).
Proof.
  unfold round_Q. split; intro H.
  - apply Qle_bool_iff in H as H'. rewrite H'. apply floor_nonneg. lra.
  - destruct (Qle_bool 0 q) eqn:E.
    + apply Qle_bool_iff in E. lra.
    + assert (0 <= Qfloor (- q + (1 # 2)))%Z by (apply floor_nonneg; lra). lia.
Qed.

Lemma trunc_Q_sign (q : Q) :
  (0 <= q -> (0 <= trunc_Q q)%Z) /\ (q <= 0 -> (trunc_Q q <= 0)%Z).
Proof.
  unfold trunc_Q. destruct (Qle_bool 0 q) eqn:E; split; intro H.
  - apply floor_nonneg. exact H.
  - assert (q == 0) as Z0 by (apply Qle_bool_iff in E; lra).
    rewrite (Qfloor_comp _ _ Z0). reflexivity.
  - apply Qle_bool_iff in H. congruence.
  - assert (0 <= Qfloor (- q))%Z by (apply floor_nonneg; lra). lia.
Qed.

Lemma ms_deg_sign (d : Q) :
  (0 <= d -> (0 <= as_i32 (ms_deg (make_minsec d)))%Z) /\
  (d < 0 -> (as_i32 (ms_deg (make_minsec d)) <= 0)%Z).
Proof.
  rewrite make_minsec_deg. unfold as_i32.
  split; intro H.
  - destruct (round_Q_sign (d * 1000000)) as [S1 _].
    assert (0 <= round_Q (d * 1000000))%Z as R by (apply S1; lra).
    assert (0 <= inject_Z (round_Q (d * 1000000))) by (change 0 with (inject_Z 0); rewrite <- Zle_Qle; exact R).
    assert (0 <= trunc_Q (inject_Z (round_Q (d * 1000000)) / 1000000))%Z; [|lia].
    apply trunc_Q_sign. qinv_consts. lra.
  - destruct (round_Q_sign (d * 1000000)) as [_ S2].
    assert (round_Q (d * 1000000) <= 0)%Z as R by (apply S2; lra).
    assert (inject_Z (round_Q (d * 1000000)) <= 0) by (change 0 with (inject_Z 0); rewrite <- Zle_Qle; exact R).
    assert (trunc_Q (inject_Z (round_Q (d * 1000000)) / 1000000) <= 0)%Z; [|lia].
    apply trunc_Q_sign. qinv_consts. lra.
Qed.

Lemma prefix_minus_z_to_string (n : Z) :
  String.prefix "-" (z_to_string n) = (n <? 0)%Z.
Proof.
  destruct (Z.ltb_spec n 0) as [N|N].
  - unfold z_to_string. rewrite (proj2 (Z.ltb_lt n 0) N). simpl.
    destruct (ascii_dec "-" "-"); [apply prefix_empty|congruence].
  - destruct (z_to_string_nonneg n N) as [L [E [NE [D _]]]].
    destruct (z_to_string n) as [|c s]; simpl in E; [subst; congruence|].
    subst L. inversion D as [|? ? Dc]; subst.
    change (String.prefix "-" (String c s)) with (if ascii_dec "-" c then String.prefix "" s else false).
    destruct (ascii_dec "-" c) as [<-|]; [discriminate|reflexivity].
Qed.

Lemma degint_spec (d : Q) :
  let s := if Qlt_bool d 0 && (as_i32 (ms_deg (make_minsec d)) =? 0)%Z then "-0"
           else z_to_string (as_i32 (ms_deg (make_minsec d))) in
  parse_i32 s = Some (as_i32 (ms_deg (make_minsec d))) /\
  String.prefix "-" s = Qlt_bool d 0.
Proof.
  cbv zeta. set (n := as_i32 (ms_deg (make_minsec d))).
  assert (R : (-2147483648 <= n <= 2147483647)%Z) by (unfold n, as_i32; lia).
  destruct (ms_deg_sign d) as [S1 S2]. fold n in S1, S2.
  destruct (Qlt_bool d 0) eqn:L; simpl.
  - apply Qlt_bool_iff in L. specialize (S2 L).
    destruct (Z.eqb_spec n 0) as [E|E].
    + rewrite E. split; reflexivity.
    + split; [apply parse_i32_z_to_string; exact R|].
      rewrite prefix_minus_z_to_string. apply Z.ltb_lt. lia.
  - split; [apply parse_i32_z_to_string; exact R|].
    rewrite prefix_minus_z_to_string. apply Z.ltb_ge. apply S1.
    apply Qnot_lt_le. intro C. apply Qlt_bool_iff in C. congruence.
Qed.

(** ** Coordinate strings kept by [GeoParam::new] *)

Lemma parse_coordinate_format_coor (ps : list string) (p : Parsed) (rest : list string) :
  parse_coordinate_format ps = Ok (p, rest) -> coor_len_ok (List.length (p_coor p)).
Proof.
  unfold parse_coordinate_format, coor_len_ok. destruct ps as [|p0 ps']; [discriminate|].
  destruct (find_char ";" p0); [intros [= <- _]; simpl; auto|].
  destruct (layout_deg _) as [[r1 t1]|] eqn:L1.
  { intros [= -> _]. unfold layout_deg in L1.
    repeat match type of L1 with context [match ?x with _ => _ end] => destruct x end;
      try discriminate. injection L1 as <- _. simpl; auto. }
  destruct (layout_deg_min _) as [[r2 t2]|] eqn:L2.
  { intros [= -> _]. unfold layout_deg_min in L2.
    repeat match type of L2 with context [match ?x with _ => _ end] => destruct x end;
      try discriminate. injection L2 as <- _. simpl; auto. }
  destruct (layout_deg_min_sec _) as [[r3 t3]|] eqn:L3; [|discriminate].
  intros [= -> _]. unfold layout_deg_min_sec in L3.
  repeat match type of L3 with context [match ?x with _ => _ end] => destruct x end;
    try discriminate. injection L3 as <- _. simpl; auto.
Qed.

Lemma get_coor_coor (g g' : GeoParam) :
  get_coor g = Ok g' -> coor_len_ok (List.length (coor g')).
Proof.
  unfold get_coor. destruct (pieces g) as [|p0 ps]; [discriminate|].
  destruct (parse_coordinate_format (p0 :: ps)) as [[p rest]|e] eqn:P; cbn [rbind]; [|discriminate].
  apply parse_coordinate_format_coor in P.
  destruct (validate_ranges p); [|discriminate].
  destruct (convert_to_decimal_degrees p). intros [= <-]. exact P.
Qed.

Lemma get_markup_ok (g : GeoParam) :
  (coor g = [] \/ coor_len_ok (List.length (coor g))) -> exists m, get_markup g = inl m.
Proof.
  unfold get_markup, coor_len_ok. intro H.
  assert (L : List.length (map coor_string (coor g)) = 0%nat \/ coor_len_ok (List.length (map coor_string (coor g)))).
  { rewrite length_map. destruct H as [->|H]; [left; reflexivity|right; exact H]. }
  unfold coor_len_ok in L.
  destruct (map coor_string (coor g)) as [|c0 [|c1 [|c2 [|c3 [|c4 [|c5 [|c6 [|c7 [|c8 l]]]]]]]]];
    simpl in L; try lia; eauto.
Qed.

(** ** [dim] written as a whole number of metres or kilometres *)

(** The table-driven [get_mmscale] of [MiscMapSourceValues] returns the
    same value as the if-chain of [MapSources] on every input. *)
Theorem get_mmscale_implementations_agree (scale_float : f64) :
  MiscMapSourceValues.get_mmscale scale_float = get_mmscale scale_float.
Proof. apply mmscale_find. Qed.

(** [get_mmscale] is monotone on finite scales and always returns one of
    the thirteen Multimap scales; NaN and negative infinity give 5000 and
    positive infinity 40000000. *)
Theorem get_mmscale_monotone :
  (forall q1 q2 : Q, q1 <= q2 -> (get_mmscale (F q1) <= get_mmscale (F q2))%Z) /\
  (forall x : f64, In (get_mmscale x)
     [5000; 10000; 25000; 50000; 100000; 200000; 500000; 1000000; 2000000;
      4000000; 10000000; 20000000; 40000000]%Z) /\
  get_mmscale NaN = 5000%Z /\ get_mmscale (Inf true) = 5000%Z /\
  get_mmscale (Inf false) = 40000000%Z.
Proof.
  split; [|split; [|split; [|split]]]; try reflexivity.
  - intros q1 q2 Q12. rewrite <- !mmscale_find.
    apply table_find_mono; [vm_compute; reflexivity | exact Q12].
  - intro x. unfold get_mmscale.
    repeat (destruct (fge x _); [cbn; tauto|]). cbn; tauto.
Qed.

(** After [default_scale] the [scale] attribute holds a non-zero [i32]
    written in decimal; it is negative only when it was copied from a
    negative [default] attribute.  No other attribute changes. *)
Theorem default_scale_result (p : GeoParam) (attr : gmap string string) :
  (exists s n, default_scale p attr !! "scale" = Some s /\ parse_i32 s = Some n /\ n <> 0%Z /\
     ((n < 0)%Z -> exists d, attr !! "default" = Some d /\ parse_i32 d = Some n)) /\
  (forall k, k <> "scale" -> default_scale p attr !! k = attr !! k).
Proof.
  split; [apply default_scale_value|]. intros k N. apply default_scale_other. exact N.
Qed.


(** [format_osgb36_reference] returns the empty string exactly when the
    easting is outside [[0, 700000)] or the northing outside
    [[0, 1300000)]. *)
Theorem format_osgb36_reference_empty (tm : TransverseMercator) :
  format_osgb36_reference tm = "" <->
  ~ (0 <= easting (tm_result tm) < 700000 /\ 0 <= northing (tm_result tm) < 1300000).
Proof.
  split.
  - intros E [He Hn]. destruct (format_osgb36_reference_in tm He Hn) as (_ & _ & R).
    rewrite R in E. discriminate.
  - intro N. unfold format_osgb36_reference. cbv zeta.
    destruct ((0 <=? floor_as_i32 (easting (tm_result tm) / 100000))%Z
              && (floor_as_i32 (easting (tm_result tm) / 100000) <=? 6)%Z) eqn:Gx;
      [|reflexivity].
    destruct ((0 <=? floor_as_i32 (northing (tm_result tm) / 100000))%Z
              && (floor_as_i32 (northing (tm_result tm) / 100000) <=? 12)%Z) eqn:Gy;
      [|reflexivity].
    exfalso. apply N.
    apply floor_as_i32_grid in Gx; [|lia]. apply floor_as_i32_grid in Gy; [|lia].
    change (inject_Z (6 + 1)) with (7 # 1) in Gx. change (inject_Z (12 + 1)) with (13 # 1) in Gy.
    qinv_consts. split; split; lra.
Qed.

(** Inside the grid the reference has 12 bytes: two square letters, then
    five digits of the easting and five of the northing, each the floor of
    the coordinate modulo 100000. *)
Theorem format_osgb36_reference_digits (tm : TransverseMercator) :
  0 <= easting (tm_result tm) < 700000 -> 0 <= northing (tm_result tm) < 1300000 ->
  String.length (format_osgb36_reference tm) = 12%nat /\
  parse_i32 (substring 2 5 (format_osgb36_reference tm))
    = Some (Qfloor (easting (tm_result tm)) mod 100000)%Z /\
  parse_i32 (substring 7 5 (format_osgb36_reference tm))
    = Some (Qfloor (northing (tm_result tm)) mod 100000)%Z.
Proof.
  intros He Hn. destruct (osgb36_ref_parts tm He Hn) as (L & P1 & P2).
  pose proof (floor_nonneg _ (proj1 He)). pose proof (floor_nonneg _ (proj1 Hn)).
  rewrite P1, P2. split; [exact L|]. split; apply pad5_spec, Z.mod_pos_bound; lia.
Qed.

Lemma format_osgb36_reference_digits_witness :
  let tm := mkTM (mkResult 180123.7 530456.2 "") AIRY_1830 OSGB36_PARAMS in
  String.length (format_osgb36_reference tm) = 12%nat /\
  parse_i32 (substring 2 5 (format_osgb36_reference tm)) = Some 30456%Z /\
  parse_i32 (substring 7 5 (format_osgb36_reference tm)) = Some 80123%Z.
Proof.
  intro tm. apply (format_osgb36_reference_digits tm).
  - split; vm_compute; (discriminate || reflexivity).
  - split; vm_compute; (discriminate || reflexivity).
Defined.

(** Inside the grid two positions with the same reference have the same
    whole-metre easting and northing. *)
Theorem format_osgb36_reference_injective (tm1 tm2 : TransverseMercator) :
  0 <= easting (tm_result tm1) < 700000 -> 0 <= northing (tm_result tm1) < 1300000 ->
  0 <= easting (tm_result tm2) < 700000 -> 0 <= northing (tm_result tm2) < 1300000 ->
  format_osgb36_reference tm1 = format_osgb36_reference tm2 ->
  Qfloor (easting (tm_result tm1)) = Qfloor (easting (tm_result tm2)) /\
  Qfloor (northing (tm_result tm1)) = Qfloor (northing (tm_result tm2)).
Proof.
  intros He1 Hn1 He2 Hn2 H.
  destruct (format_osgb36_reference_in tm1 He1 Hn1) as (X1 & Y1 & R1).
  destruct (format_osgb36_reference_in tm2 He2 Hn2) as (X2 & Y2 & _).
  destruct (osgb36_ref_parts tm1 He1 Hn1) as (_ & A1 & B1).
  destruct (osgb36_ref_parts tm2 He2 Hn2) as (_ & A2 & B2).
  pose proof (floor_nonneg _ (proj1 He1)). pose proof (floor_nonneg _ (proj1 Hn1)).
  pose proof (floor_nonneg _ (proj1 He2)). pose proof (floor_nonneg _ (proj1 Hn2)).
  assert (De : (Qfloor (easting (tm_result tm1)) mod 100000 = Qfloor (easting (tm_result tm2)) mod 100000)%Z).
  { assert (P : parse_i32 (substring 2 5 (format_osgb36_reference tm1))
              = parse_i32 (substring 2 5 (format_osgb36_reference tm2))) by (rewrite H; reflexivity).
    rewrite A1, A2, (proj2 (pad5_spec _ ltac:(apply Z.mod_pos_bound; lia))),
      (proj2 (pad5_spec _ ltac:(apply Z.mod_pos_bound; lia))) in P.
    injection P as P. exact P. }
  assert (Dn : (Qfloor (northing (tm_result tm1)) mod 100000 = Qfloor (northing (tm_result tm2)) mod 100000)%Z).
  { assert (P : parse_i32 (substring 7 5 (format_osgb36_reference tm1))
              = parse_i32 (substring 7 5 (format_osgb36_reference tm2))) by (rewrite H; reflexivity).
    rewrite B1, B2, (proj2 (pad5_spec _ ltac:(apply Z.mod_pos_bound; lia))),
      (proj2 (pad5_spec _ ltac:(apply Z.mod_pos_bound; lia))) in P.
    injection P as P. exact P. }
  destruct (format_osgb36_reference_in tm2 He2 Hn2) as (_ & _ & R2).
  rewrite R1, R2 in H. injection H as C1 C2 _.
  assert (Sq : osgb36_square_letters (Qfloor (easting (tm_result tm1) / 100000)) (Qfloor (northing (tm_result tm1) / 100000))
             = osgb36_square_letters (Qfloor (easting (tm_result tm2) / 100000)) (Qfloor (northing (tm_result tm2) / 100000))).
  { apply injective_projections; assumption. }
  destruct (osgb36_square_letters_inj _ _ _ _ X1 Y1 X2 Y2 Sq) as [Gx Gy].
  rewrite !floor_div_100000 in Gx, Gy by lra.
  pose proof (Z.div_mod (Qfloor (easting (tm_result tm1))) 100000 ltac:(lia)).
  pose proof (Z.div_mod (Qfloor (easting (tm_result tm2))) 100000 ltac:(lia)).
  pose proof (Z.div_mod (Qfloor (northing (tm_result tm1))) 100000 ltac:(lia)).
  pose proof (Z.div_mod (Qfloor (northing (tm_result tm2))) 100000 ltac:(lia)).
  split; lia.
Qed.

Lemma format_osgb36_reference_injective_witness :
  let tm := mkTM (mkResult 180123.7 530456.2 "") AIRY_1830 OSGB36_PARAMS in
  let tm' := mkTM (mkResult 180123.1 530456.9 "") WGS84 UTM_PARAMS in
  Qfloor (easting (tm_result tm)) = Qfloor (easting (tm_result tm'))
  /\ Qfloor (northing (tm_result tm)) = Qfloor (northing (tm_result tm')).
Proof.
  intros tm tm'. apply (format_osgb36_reference_injective tm tm').
  - split; vm_compute; (discriminate || reflexivity).
  - split; vm_compute; (discriminate || reflexivity).
  - split; vm_compute; (discriminate || reflexivity).
  - split; vm_compute; (discriminate || reflexivity).
  - vm_compute. reflexivity.
Defined.

(** [quote_html] leaves no brace in its output: each [{] and [}] becomes
    an HTML character reference. *)
Theorem quote_html_no_braces (s : string) :
  ~ In "{"%char (list_ascii_of_string (quote_html s)) /\
  ~ In "}"%char (list_ascii_of_string (quote_html s)).
Proof.
  unfold quote_html. split; intro H.
  - apply str_replace_char in H as [H|[H _]]; [simpl in H; intuition discriminate|].
    apply str_replace_char in H as [H|[_ H]]; [simpl in H; intuition discriminate|congruence].
  - apply str_replace_char in H as [H|[_ H]]; [simpl in H; intuition discriminate|congruence].
Qed.

Lemma string_get_list_in (n : nat) (s : string) (c : ascii) :
  String.get n s = Some c -> In c (list_ascii_of_string s).
Proof.
  revert n. induction s as [|c' s IH]; intros n H; [discriminate|].
  destruct n as [|n]; simpl in H |- *.
  - injection H as ->. left. reflexivity.
  - right. exact (IH n H).
Qed.

Lemma string_get_none_length (n : nat) (s : string) :
  String.get n s = None -> (String.length s <= n)%nat.
Proof.
  revert n. induction s as [|c s IH]; intros n H; simpl; [lia|].
  destruct n as [|n]; simpl in H; [discriminate|].
  specialize (IH n H). lia.
Qed.

(** [get_region] gives something other than the empty region (a
    non-empty suffix, or a panic) only when neither a [page] nor a [globe]
    attribute is present (an empty one counts as present) and the
    [region] attribute is present and non-empty; for an ASCII region value
    it does not panic. *)
Theorem get_region_nonempty (attr : gmap string string) :
  (get_region attr <> Some "" <->
   attr !! "page" = None /\ attr !! "globe" = None /\
   exists r, attr !! "region" = Some r /\ r <> "") /\
  ((forall r, attr !! "region" = Some r ->
      Forall (fun c => (nat_of_ascii c < 128)%nat) (list_ascii_of_string r)) ->
   get_region attr <> None).
Proof.
  unfold get_region.
  destruct (attr !! "page"); [split; [split; [congruence|intros [H _]; discriminate]|congruence]|].
  destruct (attr !! "globe"); [split; [split; [congruence|intros [_ [H _]]; discriminate]|congruence]|].
  destruct (attr !! "region") as [r|].
  - destruct (String.eqb_spec r "") as [->|N].
    + split; [|congruence]. split; [congruence|]. intros [_ [_ [r' [E N]]]]. congruence.
    + split.
      * split; [|intros _; destruct (is_char_boundary _ _); discriminate].
        intros _. eauto.
      * intros A. specialize (A r eq_refl).
        unfold is_char_boundary.
        destruct (String.get _ r) as [c|] eqn:G.
        2:{ apply string_get_none_length in G.
            rewrite (proj2 (Nat.eqb_eq _ _)) by lia. discriminate. }
        apply string_get_list_in in G.
        rewrite List.Forall_forall in A. specialize (A c G).
        assert (E : (128 <=? nat_of_ascii c)%nat = false) by (apply Nat.leb_gt; lia).
        rewrite E. simpl. discriminate.
  - split; [|congruence]. split; [congruence|]. intros [_ [_ [r' [E _]]]]. discriminate.
Qed.

(** [region_string] is empty exactly when the [region] attribute is
    absent or at most four bytes long. *)
Theorem region_string_empty (attr : gmap string string) :
  MiscMapSourceValues.region_string attr = "" <->
  forall r, attr !! "region" = Some r -> (String.length r <= 4)%nat.
Proof.
  unfold MiscMapSourceValues.region_string.
  destruct (attr !! "region") as [r|]; [|split; [discriminate|reflexivity]].
  destruct (Nat.leb_spec 4 (String.length r)) as [L|L].
  - unfold slice. rewrite to_upper_ascii_empty, substring_empty by lia.
    split.
    + intros E r' [= <-]. lia.
    + intros H. specialize (H r eq_refl). lia.
  - split; [|reflexivity]. intros _ r' [= <-]. lia.
Qed.

(** [CoordinateGroup::new]: [latdegint] and [londegint] read back as the
    truncated rounded degrees, and begin with a minus sign exactly when
    the latitude (longitude) is negative, also when they truncate to 0. *)
Theorem coordinate_group_degint (p : GeoParam) :
  parse_i32 (latdegint (coordinate_group_new p)) =
    Some (as_i32 (ms_deg (cg_lat (coordinate_group_new p)))) /\
  String.prefix "-" (latdegint (coordinate_group_new p)) = Qlt_bool (latdeg p) 0 /\
  parse_i32 (londegint (coordinate_group_new p)) =
    Some (as_i32 (ms_deg (cg_lon (coordinate_group_new p)))) /\
  String.prefix "-" (londegint (coordinate_group_new p)) = Qlt_bool (londeg p) 0.
Proof.
  destruct (degint_spec (latdeg p)) as [A B].
  destruct (degint_spec (londeg p)) as [C D].
  repeat split; assumption.
Qed.

(** [get_markup] never reports an invalid coordinate length on a value
    built by [GeoParam::new]: a single coordinate keeps 2, 4, 6 or 8
    strings and a range keeps none. *)
Theorem geo_new_get_markup_ok (param : string) (g : GeoParam) :
  geo_new param = Ok g -> exists m, get_markup g = inl m.
Proof.
  unfold geo_new. intro H. apply geo_from_pieces_inv in H.
  destruct H as (g1 & E1 & [-> | (rest & g2 & P & E2 & ->)]); apply get_markup_ok.
  - right. apply get_coor_coor in E1. exact E1.
  - left. unfold update_range_bounds.
    destruct (if Qlt_bool (latdeg g2) (latdeg_max g2) then _ else _).
    destruct (if Qlt_bool (londeg g2) (londeg_max g2) then _ else _). reflexivity.
Qed.

Lemma geo_new_get_markup_ok_witness :
  exists g, geo_new "40 30 N 74 15 W" = Ok g /\ exists m, get_markup g = inl m.
Proof.
  eexists. split; [vm_compute; reflexivity|].
  apply (geo_new_get_markup_ok "40 30 N 74 15 W"). vm_compute. reflexivity.
Defined.

